(** * Neutron: singleton locator, lifecycle registry and endpoint namer

    A shallow embedding of the three pieces of the Neutron runtime
    (the provider core, [lifecycle.ts] and [net.ts]) together with the
    properties of their specification.

    Host values that the code only passes around (closures, threads, class
    tables, players, instances) are represented by their identity.  Host
    primitives the code calls but does not define ([task.spawn], [Random],
    [Players.GetPlayers], [debug.info]) appear as recorded effects or as
    parameters with their documented contract. *)

From Stdlib Require Import ZArith Ascii String.
From stdpp Require Import gmap strings list pretty.

Local Open Scope string_scope.
Local Open Scope list_scope.

(** ** Outcomes shared by the three components *)

(** What a call does to the thread that makes it: it returns a value, it
    raises (Luau [error(msg, level)]), or, for the one unbounded loop of the
    code base, its bounded unrolling ran out of steps. *)
Inductive Result (A : Type) : Type :=
  | Ok (a : A)
  | Raise (msg : string)
  | OutOfFuel.
Arguments Ok {A} a.
Arguments Raise {A} msg.
Arguments OutOfFuel {A}.

(** A cooperative thread either runs to its end or parks at a yield from
    which nothing in the model resumes it. *)
Inductive Outcome : Type :=
  | Returned
  | Suspended.

(** The host's [task.spawn(f)]: [f] starts at once on a thread of its own;
    whether that thread ends or parks, control comes back to the caller,
    which goes on. *)
Definition task_spawn (spawned_thread : Outcome) : Outcome := Returned.

(** ** lifecycle.ts *)

Module Lifecycle.

Inductive LifecycleBehavior : Type :=
  | Series
  | Concurrent.

(** Closures are compared with [===]: a callback is its identity. *)
Definition Callback : Type := nat.
Definition Listener : Type := nat.
(** The argument pack handed to [fire]; opaque host values. *)
Definition Args : Type := list Z.

Record CallbackItem : Type := mkCallbackItem {
  callback : Callback;
  memoryCategory : string
}.

Record NeutronLifecycle : Type := mkLifecycle {
  behavior : LifecycleBehavior;
  callbacks : list CallbackItem;
  onRegisteredCallbacks : list Listener;
  onUnregisteredCallbacks : list Listener
}.

(** The constructor: three empty arrays, [fire] bound by the behaviour. *)
Definition new (b : LifecycleBehavior) : NeutronLifecycle :=
  mkLifecycle b [] [] [].

(** What a lifecycle operation makes the host do, in program order.
    [Spawn category cb args o] is the [task.spawn] of the closure that sets
    the memory category and calls [cb(...args)]; that closure runs on a
    thread of its own, which ends in [o]. *)
Inductive Event : Type :=
  | SetMemoryCategory (category : string)
  | ResetMemoryCategory
  | Call (cb : Callback) (args : Args)
  | Spawn (category : string) (cb : Callback) (args : Args) (o : Outcome)
  | Registered (l : Listener) (cb : Callback)
  | Unregistered (l : Listener) (cb : Callback).

(** roblox-ts [Array.unorderedRemove(index)]: when the slot holds a value,
    the last element is stored into it and the last slot is cleared; out of
    range nothing happens. *)
Definition unorderedRemove {A : Type} (index : nat) (arr : list A) : list A :=
  match arr !! index, last arr with
  | Some _, Some x => removelast (<[index := x]> arr)
  | _, _ => arr
  end.

(** [findIndex((item) => item.callback === callback)]; [None] is [-1]. *)
Definition findIndex (cb : Callback) (arr : list CallbackItem) : option nat :=
  fst <$> list_find (λ item, callback item = cb) arr.

(** [indexOf] on the listener arrays. *)
Definition indexOf (l : Listener) (arr : list Listener) : option nat :=
  fst <$> list_find (λ x, x = l) arr.

Definition callOnUnregisteredCallbacks (lc : NeutronLifecycle) (cb : Callback)
  : list Event :=
  (λ l, Unregistered l cb) <$> onUnregisteredCallbacks lc.

Definition register (cb : Callback) (category : string) (lc : NeutronLifecycle)
  : NeutronLifecycle * list Event :=
  (mkLifecycle (behavior lc)
               (callbacks lc ++ [mkCallbackItem cb category])
               (onRegisteredCallbacks lc)
               (onUnregisteredCallbacks lc),
   (λ l, Registered l cb) <$> onRegisteredCallbacks lc).

Definition unregister (cb : Callback) (lc : NeutronLifecycle)
  : NeutronLifecycle * list Event :=
  match findIndex cb (callbacks lc) with
  | None => (lc, [])
  | Some index =>
      (mkLifecycle (behavior lc)
                   (unorderedRemove index (callbacks lc))
                   (onRegisteredCallbacks lc)
                   (onUnregisteredCallbacks lc),
       callOnUnregisteredCallbacks lc cb)
  end.


Definition onRegistered (l : Listener) (lc : NeutronLifecycle) : NeutronLifecycle :=
  mkLifecycle (behavior lc) (callbacks lc)
              (onRegisteredCallbacks lc ++ [l]) (onUnregisteredCallbacks lc).

(** The cleanup closure returned by [onRegistered]. *)
Definition onRegistered_cleanup (l : Listener) (lc : NeutronLifecycle)
  : NeutronLifecycle :=
  match indexOf l (onRegisteredCallbacks lc) with
  | None => lc
  | Some index =>
      mkLifecycle (behavior lc) (callbacks lc)
                  (unorderedRemove index (onRegisteredCallbacks lc))
                  (onUnregisteredCallbacks lc)
  end.

Definition onUnregistered (l : Listener) (lc : NeutronLifecycle) : NeutronLifecycle :=
  mkLifecycle (behavior lc) (callbacks lc)
              (onRegisteredCallbacks lc) (onUnregisteredCallbacks lc ++ [l]).

Definition onUnregistered_cleanup (l : Listener) (lc : NeutronLifecycle)
  : NeutronLifecycle :=
  match indexOf l (onUnregisteredCallbacks lc) with
  | None => lc
  | Some index =>
      mkLifecycle (behavior lc) (callbacks lc)
                  (onRegisteredCallbacks lc)
                  (unorderedRemove index (onUnregisteredCallbacks lc))
  end.

Section Fire.

(** The behaviour of the registered closures is not part of the registry:
    [suspends cb args] tells whether the call [cb(...args)] parks its
    thread at a yield instead of returning. *)
Variable suspends : Callback → Args → bool.

Definition run_callback (cb : Callback) (args : Args) : Outcome :=
  if suspends cb args then Suspended else Returned.

(** [fireConcurrent]: one [task.spawn] per entry, of the closure that sets
    the memory category and calls the callback. *)
Fixpoint fireConcurrent (arr : list CallbackItem) (args : Args)
  : list Event * Outcome :=
  match arr with
  | [] => ([], Returned)
  | item :: rest =>
      let spawn := Spawn (memoryCategory item) (callback item) args
                         (run_callback (callback item) args) in
      match task_spawn (run_callback (callback item) args) with
      | Suspended => ([spawn], Suspended)
      | Returned =>
          let '(evs, o) := fireConcurrent rest args in
          (spawn :: evs, o)
      end
  end.

(** [fireSeries]: the callback runs on the firing thread; when it parks,
    the firing thread is parked with it and the loop goes no further. *)
Fixpoint fireSeries (arr : list CallbackItem) (args : Args)
  : list Event * Outcome :=
  match arr with
  | [] => ([], Returned)
  | item :: rest =>
      match run_callback (callback item) args with
      | Suspended =>
          ([SetMemoryCategory (memoryCategory item); Call (callback item) args],
           Suspended)
      | Returned =>
          let '(evs, o) := fireSeries rest args in
          (SetMemoryCategory (memoryCategory item)
             :: Call (callback item) args :: ResetMemoryCategory :: evs, o)
      end
  end.

(** [fire] as bound by the constructor. *)
Definition fire (lc : NeutronLifecycle) (args : Args) : list Event * Outcome :=
  match behavior lc with
  | Series => fireSeries (callbacks lc) args
  | Concurrent => fireConcurrent (callbacks lc) args
  end.

End Fire.

(** The callbacks the firing thread itself called, in order. *)
Fixpoint invoked (evs : list Event) : list Callback :=
  match evs with
  | [] => []
  | Call cb _ :: rest => cb :: invoked rest
  | _ :: rest => invoked rest
  end.

(** The callbacks started on threads of their own, in spawn order. *)
Fixpoint spawned (evs : list Event) : list Callback :=
  match evs with
  | [] => []
  | Spawn _ cb _ _ :: rest => cb :: spawned rest
  | _ :: rest => spawned rest
  end.

(** A client of the registry between two fires. *)
Inductive Op : Type :=
  | Register (cb : Callback) (category : string)
  | Unregister (cb : Callback).

Definition step (lc : NeutronLifecycle) (op : Op) : NeutronLifecycle :=
  match op with
  | Register cb category => fst (register cb category lc)
  | Unregister cb => fst (unregister cb lc)
  end.

Definition run (ops : list Op) (lc : NeutronLifecycle) : NeutronLifecycle :=
  fold_left step ops lc.

(** The specification's reading of the same history: [unregister] "removes
    the first matching entry by identity", the others keep their relative
    registration order. *)
Fixpoint remove_first (cb : Callback) (l : list Callback) : list Callback :=
  match l with
  | [] => []
  | x :: rest => if decide (x = cb) then rest else x :: remove_first cb rest
  end.

Definition survivors_step (l : list Callback) (op : Op) : list Callback :=
  match op with
  | Register cb _ => l ++ [cb]
  | Unregister cb => remove_first cb l
  end.

Definition survivors (ops : list Op) : list Callback :=
  fold_left survivors_step ops [].

(** What [unregister] does to the array, in words: the entries before the
    removed one stay where they are, the last entry takes the freed slot,
    and the entries that were in between follow it. *)
Definition swap_with_last {A : Type} (i : nat) (l : list A) : list A :=
  take i l ++ option_list (last (drop (S i) l)) ++ removelast (drop (S i) l).

(** Histories in which every [Unregister] names a callback that is, at that
    point, not registered or first found among the last two entries. *)
Fixpoint keeps_registration_order (ops : list Op) (l : list Callback) : bool :=
  match ops with
  | [] => true
  | op :: rest =>
      match op with
      | Register _ _ => true
      | Unregister cb => bool_decide (cb ∉ take (length l - 2) l)
      end && keeps_registration_order rest (survivors_step l op)
  end.

End Lifecycle.

(** ** The provider core *)

Module Neutron.

(** A class is the identity of its class table, an instance and a thread
    the identity of the object, a callback the identity of the closure. *)
Definition Class : Type := nat.
Definition Instance : Type := nat.
Definition Thread : Type := nat.
Definition Callback : Type := nat.

(** The two things [task.spawn] is handed: a queued closure or a parked
    thread. *)
Inductive Task : Type :=
  | SpawnCallback (cb : Callback)
  | SpawnThread (th : Thread).

(** The module-level variables, the [PROVIDER_KEY] slot each class table
    holds itself ([providers]), the objects built so far by [new providerClass()]
    with the class they were built from ([constructed]), and the
    [task.spawn] calls made so far ([spawned]). *)
Record State : Type := mkState {
  started : bool;
  awaitStartThreads : list Thread;
  awaitCallbacks : list Callback;
  providers : gmap Class Instance;
  constructed : list (Class * Instance);
  spawned : list Task
}.

Definition init : State := mkState false [] [] ∅ [] [].

(** [new providerClass()]: a fresh object, never [undefined]. *)
Definition fresh (st : State) : Instance := length (constructed st).

(** The decorator returned by [Provider()], applied to [providerClass]. *)
Definition Provider (providerClass : Class) (st : State) : Result unit * State :=
  if started st then
    (Raise "[Neutron]: Cannot create provider after Proton has started", st)
  else
    (Ok (),
     mkState (started st) (awaitStartThreads st) (awaitCallbacks st)
             (<[providerClass := fresh st]> (providers st))
             (constructed st ++ [(providerClass, fresh st)])
             (spawned st)).

Definition isStarted (st : State) : bool := started st.

Definition start (st : State) : State :=
  if started st then st
  else
    mkState true [] [] (providers st) (constructed st)
            (spawned st ++ (SpawnCallback <$> awaitCallbacks st)
                        ++ (SpawnThread <$> awaitStartThreads st)).

(** [awaitStart] called on thread [th] ([coroutine.running()]). *)
Definition awaitStart (th : Thread) (st : State) : Outcome * State :=
  if started st then (Returned, st)
  else
    (Suspended,
     mkState (started st) (awaitStartThreads st ++ [th]) (awaitCallbacks st)
             (providers st) (constructed st) (spawned st)).

Definition onStart (cb : Callback) (st : State) : State :=
  if started st then
    mkState (started st) (awaitStartThreads st) (awaitCallbacks st)
            (providers st) (constructed st) (spawned st ++ [SpawnCallback cb])
  else
    mkState (started st) (awaitStartThreads st) (awaitCallbacks st ++ [cb])
            (providers st) (constructed st) (spawned st).

Section Get.

(** [tostring(providerClass)], the class's [__tostring]. *)
Variable tostring : Class → string.

(** The double-quote character of the message template. *)
Definition dquote : string := String (ascii_of_nat 34) EmptyString.

Definition not_found (providerClass : Class) : string :=
  "[Neutron]: Failed to find provider " +:+ dquote
    +:+ tostring providerClass +:+ dquote.

(** The superclass chain of a class, nearest first: for [class B extends A]
    the chain of [B] starts with [A].  A class table that holds no value
    under a key answers with what its superclass answers. *)
Variable ancestors : Class → list Class.

(** Indexing along a chain of class tables: the first slot that is set. *)
Fixpoint index_chain (chain : list Class) (st : State) : option Instance :=
  match chain with
  | [] => None
  | c :: rest =>
      match providers st !! c with
      | Some provider => Some provider
      | None => index_chain rest st
      end
  end.

(** [providerClass[PROVIDER_KEY]]: the slot of the class itself, else the
    one it inherits. *)
Definition class_index (providerClass : Class) (st : State) : option Instance :=
  index_chain (providerClass :: ancestors providerClass) st.

(** [get] only reads. *)
Definition get (providerClass : Class) (st : State) : Result Instance :=
  match class_index providerClass st with
  | None => Raise (not_found providerClass)
  | Some provider => Ok provider
  end.

End Get.

(** Calls a program can make, in the order it makes them. *)
Inductive Op : Type :=
  | Decorate (providerClass : Class)
  | Start
  | AwaitStart (th : Thread)
  | OnStart (cb : Callback)
  | Get (providerClass : Class).

Definition step (st : State) (op : Op) : State :=
  match op with
  | Decorate c => snd (Provider c st)
  | Start => start st
  | AwaitStart th => snd (awaitStart th st)
  | OnStart cb => onStart cb st
  | Get _ => st
  end.

Definition run (ops : list Op) (st : State) : State := fold_left step ops st.

(** The objects built for class [c], oldest first. *)
Definition built_for (c : Class) (st : State) : list Instance :=
  snd <$> filter (λ p, p.1 = c) (constructed st).


(** What ties the provider slots to the constructions made so far: the slot
    of a class holds the object built last for it, and objects are numbered
    in the order they were built. *)
Definition consistent (st : State) : Prop :=
  (∀ c, providers st !! c = last (built_for c st))
  ∧ snd <$> constructed st = seq 0 (length (constructed st)).

(** The callbacks handed to [onStart] and the threads that called
    [awaitStart] in a history, in call order. *)
Definition queued_callbacks (ops : list Op) : list Callback :=
  omap (λ op, match op with OnStart cb => Some cb | _ => None end) ops.

Definition parked_threads (ops : list Op) : list Thread :=
  omap (λ op, match op with AwaitStart th => Some th | _ => None end) ops.

(** The closures and the threads handed to [task.spawn] so far, in spawn
    order. *)
Definition spawned_callbacks (st : State) : list Callback :=
  omap (λ t, match t with SpawnCallback cb => Some cb | _ => None end) (spawned st).

Definition spawned_threads (st : State) : list Thread :=
  omap (λ t, match t with SpawnThread th => Some th | _ => None end) (spawned st).

#[global] Instance Op_eq_dec : EqDecision Op.
Proof. solve_decision. Defined.

(** The calls of a history made before its first [Start]. *)
Fixpoint before_start (ops : list Op) : list Op :=
  match ops with
  | [] => []
  | Start :: _ => []
  | op :: rest => op :: before_start rest
  end.

End Neutron.

(** ** net.ts *)

Module Net.

(** The host's [Random] class: [new Random(seed)] and
    [rng:NextInteger(min, max)], which draws from the closed range. *)
Class RandomHost : Type := {
  Rng : Type;
  Random_new : Z → Rng;
  NextInteger : Z → Z → Rng → Z * Rng;
  NextInteger_range : ∀ lo hi g,
    (lo ≤ hi)%Z → (lo ≤ (NextInteger lo hi g).1 ≤ hi)%Z
}.

(** What the module reads once when it is loaded. *)
Record Env : Type := mkEnv {
  seed : Z;
  IsServer : bool;
  IsStudio : bool
}.

Inductive RemoteClass : Type :=
  | RemoteEvent
  | RemoteFunction
  | UnreliableRemoteEvent.

(** A remote object of the [NeutronNet] folder. *)
Record Remote : Type := mkRemote {
  ClassName : RemoteClass;
  Name : string
}.

Record State : Type := mkState {
  networkNames : gset string;
  netFolder : list Remote
}.

Definition init : State := mkState ∅ [].

(** [data.byte(1, data.size())] *)
Fixpoint string_byte (data : string) : list Z :=
  match data with
  | EmptyString => []
  | String a rest => Z.of_N (N_of_ascii a) :: string_byte rest
  end.

(** [string.char(...codes)]; a code outside [0, 255] is an error. *)
Fixpoint string_char (codes : list Z) : option string :=
  match codes with
  | [] => Some EmptyString
  | c :: rest =>
      if decide (0 ≤ c < 256)%Z then
        String (ascii_of_N (Z.to_N c)) <$> string_char rest
      else None
  end.

(** [arr.reduce((accumulator, val) => accumulator + val)] without an
    initial value: the first element starts the sum, an empty array is an
    error. *)
Definition reduce_add (arr : list Z) : Result Z :=
  match arr with
  | [] => Raise "Attempted to call reduce on an empty array without an initialValue"
  | x :: rest => Ok (fold_left Z.add rest x)
  end.

(** The specification's checksum: the byte-sum of the fingerprint. *)
Definition checksum (data : string) : Z :=
  foldr Z.add 0%Z (string_byte data).

Section Namer.

Context `{RandomHost}.
Variable env : Env.

(** [for (let i = 0; i < n; i++) nameArray.push(rng.NextInteger(33, 126))] *)
Fixpoint nameArray (n : nat) (rng : Rng) : list Z :=
  match n with
  | O => []
  | S n' =>
      let '(code, rng') := NextInteger 33 126 rng in
      code :: nameArray n' rng'
  end.

(** The first half of [generateNetworkName], up to [baseName]. *)
Definition baseName (data : string) : Result string :=
  match reduce_add (string_byte data) with
  | Ok sum =>
      let nameSeed := (seed env + sum)%Z in
      let rng := Random_new nameSeed in
      match string_char (nameArray 16 rng) with
      | Some s => Ok s
      | None => Raise "invalid value"
      end
  | Raise msg => Raise msg
  | OutOfFuel => OutOfFuel
  end.

(** [while (networkNames.has(name)) { name = `${baseName}${iter}`; iter++ }]
    unrolled at most [fuel] tests of the condition. *)
Fixpoint resolve (fuel : nat) (names : gset string) (base name : string)
         (iter : nat) : option string :=
  match fuel with
  | O => None
  | S fuel' =>
      if decide (name ∈ names) then
        resolve fuel' names base (base +:+ pretty iter) (S iter)
      else Some name
  end.

(** [generateNetworkName]; one more test than there are names always
    suffices (shown below). *)
Definition generateNetworkName (data : string) (st : State)
  : Result string * State :=
  match baseName data with
  | Ok base =>
      match resolve (S (size (networkNames st))) (networkNames st) base base 0 with
      | Some name =>
          (Ok name, mkState ({[name]} ∪ networkNames st) (netFolder st))
      | None => (OutOfFuel, st)
      end
  | Raise msg => (Raise msg, st)
  | OutOfFuel => (OutOfFuel, st)
  end.

(** [setupRemoteObject(className, name)], called from source [s] at line
    [l] (what [debug.info(2, "sl")] returns).  On the client the remote is
    the child [WaitForChild] waits for. *)
Definition setupRemoteObject (className : RemoteClass) (name : option string)
           (s : string) (l : nat) (st : State) : Result Remote * State :=
  let generated :=
    match name with
    | Some n => if IsStudio env then (Ok n, st)
                else generateNetworkName (s +:+ pretty l) st
    | None => generateNetworkName (s +:+ pretty l) st
    end in
  match generated with
  | (Ok n, st') =>
      let remote := mkRemote className ("r/" +:+ n) in
      if IsServer env then
        (Ok remote, mkState (networkNames st') (netFolder st' ++ [remote]))
      else (Ok remote, st')
  | (Raise msg, st') => (Raise msg, st')
  | (OutOfFuel, st') => (OutOfFuel, st')
  end.

(** One endpoint construction ([new NetEvent(name)] and the like). *)
Record Request : Type := mkRequest {
  req_class : RemoteClass;
  req_name : option string;
  req_source : string;
  req_line : nat
}.

(** Whether the construction takes the generating branch. *)
Definition generates (r : Request) : bool :=
  match req_name r with
  | None => true
  | Some _ => negb (IsStudio env)
  end.

(** A process constructing its endpoints one after the other; the result
    lists each request with the remote it got. *)
Fixpoint setupAll (reqs : list Request) (st : State)
  : Result (list (Request * Remote)) * State :=
  match reqs with
  | [] => (Ok [], st)
  | r :: rest =>
      match setupRemoteObject (req_class r) (req_name r)
                              (req_source r) (req_line r) st with
      | (Ok remote, st') =>
          match setupAll rest st' with
          | (Ok out, st'') => (Ok ((r, remote) :: out), st'')
          | other => other
          end
      | (Raise msg, st') => (Raise msg, st')
      | (OutOfFuel, st') => (OutOfFuel, st')
      end
  end.

End Namer.

(** *** Vocabulary of the namer's properties *)

(** The names the loop of [generateNetworkName] tries, in order: the base
    name, then the base name followed by 0, 1, 2, ... *)
Definition candidate (base : string) (k : nat) : string :=
  match k with
  | O => base
  | S j => base +:+ pretty j
  end.

(** Every name in the set that is a 16-character base with a number behind
    it is there because the base itself was taken first. *)
Definition suffix_closed (names : gset string) : Prop :=
  ∀ (b : string) (k : nat),
    String.length b = 16%nat → b +:+ pretty k ∈ names → b ∈ names.

(** The wire names of the endpoints that took the generating branch. *)
Definition generated_names `{RandomHost} (env : Env)
    (out : list (Request * Remote)) : list string :=
  (λ p, Name p.2) <$> filter (λ p, generates env p.1 = true) out.

(** A concrete generator honouring the host contract, used to run the namer
    on examples: a 64-bit linear congruential generator. *)
Definition lcg_next (lo hi g : Z) : Z * Z :=
  ((lo + g mod (hi - lo + 1))%Z,
   ((g * 6364136223846793005 + 1442695040888963407) mod 2 ^ 64)%Z).

Definition lcg : RandomHost.
Proof.
  refine (Build_RandomHost Z (λ s, s) lcg_next _).
  intros lo hi g Hle. cbn [lcg_next fst].
  pose proof (Z.mod_pos_bound g (hi - lo + 1)). lia.
Defined.

(** Fingerprints with byte-sum 7: one byte 7, and the bytes 3 and 4. *)
Definition fingerprint_X : string := String (ascii_of_nat 7) EmptyString.
Definition fingerprint_Y : string :=
  String (ascii_of_nat 3) (String (ascii_of_nat 4) EmptyString).

(** *** The server side of events *)

Definition Player : Type := nat.
Definition Args : Type := list Z.

(** The first argument of [fire] and [fireExcept]: a player, for which
    [typeOf] is ["Instance"], or an array of players, for which it is
    ["table"]. *)
Inductive Players : Type :=
  | OnePlayer (p : Player)
  | PlayerArray (ps : list Player).

Definition typeOf (player : Players) : string :=
  match player with
  | OnePlayer _ => "Instance"
  | PlayerArray _ => "table"
  end.

Inductive RemoteCall : Type :=
  | FireClient (remote : Remote) (p : Player) (args : Args)
  | FireAllClients (remote : Remote) (args : Args).

Section Server.

(** [Players.GetPlayers()] at the time of the call. *)
Variable GetPlayers : list Player.

Definition NetEventServer_fireAll (remoteEvent : Remote) (args : Args)
  : list RemoteCall := [FireAllClients remoteEvent args].

(** [NetEventServer.fire]: the test is on the type of [player] alone. *)
Definition NetEventServer_fire (remoteEvent : Remote) (player : Players)
           (args : Args) : list RemoteCall :=
  if decide (typeOf player = "table") then
    (λ otherPlayer, FireClient remoteEvent otherPlayer args) <$> GetPlayers
  else
    match player with
    | OnePlayer p => [FireClient remoteEvent p args]
    | PlayerArray _ => []
    end.

Definition NetEventServer_fireExcept (remoteEvent : Remote)
           (exceptPlayer : Players) (args : Args) : list RemoteCall :=
  if decide (typeOf exceptPlayer = "table") then
    match exceptPlayer with
    | PlayerArray ps =>
        (λ player, FireClient remoteEvent player args)
          <$> filter (λ player, player ∉ ps) GetPlayers
    | OnePlayer _ => []
    end
  else
    match exceptPlayer with
    | OnePlayer q =>
        (λ player, FireClient remoteEvent player args)
          <$> filter (λ player, player ≠ q) GetPlayers
    | PlayerArray _ => []
    end.

Definition NetEventServer_fireIf (remoteEvent : Remote)
           (predicate : Player → bool) (args : Args) : list RemoteCall :=
  (λ player, FireClient remoteEvent player args)
    <$> filter (λ player, predicate player = true) GetPlayers.

(** [UnreliableNetEventServer.fire], the same text over an
    [UnreliableRemoteEvent]. *)
Definition UnreliableNetEventServer_fire (unreliableRemoteEvent : Remote)
           (player : Players) (args : Args) : list RemoteCall :=
  if decide (typeOf player = "table") then
    (λ otherPlayer, FireClient unreliableRemoteEvent otherPlayer args)
      <$> GetPlayers
  else
    match player with
    | OnePlayer p => [FireClient unreliableRemoteEvent p args]
    | PlayerArray _ => []
    end.

Definition UnreliableNetEventServer_fireAll (unreliableRemoteEvent : Remote)
           (args : Args) : list RemoteCall :=
  [FireAllClients unreliableRemoteEvent args].

Definition UnreliableNetEventServer_fireExcept (unreliableRemoteEvent : Remote)
           (exceptPlayer : Players) (args : Args) : list RemoteCall :=
  if decide (typeOf exceptPlayer = "table") then
    match exceptPlayer with
    | PlayerArray ps =>
        (λ player, FireClient unreliableRemoteEvent player args)
          <$> filter (λ player, player ∉ ps) GetPlayers
    | OnePlayer _ => []
    end
  else
    match exceptPlayer with
    | OnePlayer q =>
        (λ player, FireClient unreliableRemoteEvent player args)
          <$> filter (λ player, player ≠ q) GetPlayers
    | PlayerArray _ => []
    end.

Definition UnreliableNetEventServer_fireIf (unreliableRemoteEvent : Remote)
           (predicate : Player → bool) (args : Args) : list RemoteCall :=
  (λ player, FireClient unreliableRemoteEvent player args)
    <$> filter (λ player, predicate player = true) GetPlayers.

End Server.

End Net.

(** * Properties *)

(** ** Lifecycle registry *)

Section LifecycleFacts.

Import Lifecycle.

(** Removing by swap keeps what removing by shift keeps, up to order. *)
Lemma unorderedRemove_cons_perm {A : Type} (arr : list A) (i : nat) (x : A) :
  arr !! i = Some x → x :: unorderedRemove i arr ≡ₚ arr.
Proof.
  intros Hi. unfold unorderedRemove. rewrite Hi.
  destruct (last arr) as [y|] eqn:Hlast.
  - apply last_Some in Hlast as [front ->].
    destruct (decide (i = length front)) as [->|Hne].
    + rewrite list_lookup_middle in Hi by done. injection Hi as <-.
      replace (length front) with (length front + 0)%nat by lia.
      rewrite insert_app_r. simpl. rewrite removelast_last.
      apply Permutation_cons_append.
    + assert (i < length front)%nat as Hlt.
      { apply lookup_lt_Some in Hi. rewrite length_app in Hi. simpl in Hi. lia. }
      rewrite lookup_app_l in Hi by done.
      rewrite insert_app_l by done. rewrite removelast_last.
      rewrite <- (take_drop_middle front i x Hi) at 2.
      rewrite insert_take_drop by done.
      rewrite <- Permutation_cons_append, <- !Permutation_middle.
      apply perm_swap.
  - apply last_None in Hlast. subst arr. done.
Qed.

Lemma unorderedRemove_out_of_range {A : Type} (arr : list A) (i : nat) :
  arr !! i = None → unorderedRemove i arr = arr.
Proof. intros Hi. unfold unorderedRemove. by rewrite Hi. Qed.

(** Removing the last slot keeps the order of the others. *)
Lemma unorderedRemove_last {A : Type} (arr : list A) (x : A) :
  unorderedRemove (length arr) (arr ++ [x]) = arr.
Proof.
  unfold unorderedRemove. rewrite list_lookup_middle by done.
  rewrite last_snoc.
  replace (length arr) with (length arr + 0)%nat by lia.
  rewrite insert_app_r. simpl. apply removelast_last.
Qed.

Lemma findIndex_Some cb arr i :
  findIndex cb arr = Some i → ∃ item, arr !! i = Some item ∧ callback item = cb.
Proof.
  unfold findIndex. intros Hf.
  destruct (list_find _ arr) as [[j item]|] eqn:Hfind; simplify_eq/=.
  apply list_find_Some in Hfind as (? & ? & ?). eauto.
Qed.

Lemma findIndex_None cb arr :
  findIndex cb arr = None → cb ∉ callback <$> arr.
Proof.
  unfold findIndex. intros Hf.
  destruct (list_find _ arr) as [[j item]|] eqn:Hfind; simplify_eq/=.
  apply list_find_None in Hfind. rewrite list_elem_of_fmap.
  intros (item & -> & Hin). rewrite Forall_forall in Hfind. by eapply Hfind.
Qed.

Lemma remove_first_cons_perm cb l :
  cb ∈ l → cb :: remove_first cb l ≡ₚ l.
Proof.
  induction l as [|x l IH]; intros Hin; [by apply elem_of_nil in Hin|].
  simpl. destruct (decide (x = cb)) as [->|Hne]; [done|].
  apply elem_of_cons in Hin as [->|Hin]; [done|].
  rewrite perm_swap. by rewrite IH.
Qed.

Lemma remove_first_absent cb l : cb ∉ l → remove_first cb l = l.
Proof.
  induction l as [|x l IH]; [done|]. intros Hnin. simpl.
  apply not_elem_of_cons in Hnin as [Hne Hnin].
  destruct (decide (x = cb)); [congruence|]. by rewrite IH.
Qed.

(** One step of the code and one step of the specification's reading keep
    the same callbacks registered. *)
Lemma step_survivors_perm lc l op :
  callback <$> callbacks lc ≡ₚ l →
  callback <$> callbacks (step lc op) ≡ₚ survivors_step l op.
Proof.
  intros Hperm. destruct op as [cb category|cb]; simpl.
  - rewrite fmap_app. simpl. by rewrite Hperm.
  - unfold unregister. destruct (findIndex cb (callbacks lc)) as [i|] eqn:Hf; simpl.
    + apply findIndex_Some in Hf as (item & Hi & Hcb).
      apply unorderedRemove_cons_perm in Hi.
      assert (cb :: (callback <$> unorderedRemove i (callbacks lc)) ≡ₚ l) as Hl.
      { rewrite <- Hperm, <- Hcb, <- fmap_cons. by apply fmap_Permutation. }
      assert (cb ∈ l) as Hin by (rewrite <- Hl; left).
      apply (Permutation_cons_inv (a := cb)).
      by rewrite remove_first_cons_perm.
    + apply findIndex_None in Hf. rewrite Hperm in Hf.
      by rewrite remove_first_absent.
Qed.

Lemma run_survivors_perm ops lc l :
  callback <$> callbacks lc ≡ₚ l →
  callback <$> callbacks (run ops lc) ≡ₚ fold_left survivors_step ops l.
Proof.
  revert lc l. induction ops as [|op ops IH]; intros lc l Hperm; [done|].
  simpl. apply IH. by apply step_survivors_perm.
Qed.

(** The array after a removal, spelt out. *)
Lemma unorderedRemove_middle {A : Type} (front tail : list A) (x : A) :
  unorderedRemove (length front) (front ++ x :: tail)
  = front ++ option_list (last tail) ++ removelast tail.
Proof.
  destruct tail as [|y tail _] using rev_ind.
  - rewrite unorderedRemove_last. cbn. by rewrite app_nil_r.
  - unfold unorderedRemove. rewrite list_lookup_middle by done.
    replace (front ++ x :: tail ++ [y]) with ((front ++ x :: tail) ++ [y])
      by (by rewrite <- app_assoc).
    rewrite last_snoc.
    rewrite insert_app_l by (rewrite length_app; cbn; lia).
    rewrite removelast_last.
    replace (length front) with (length front + 0)%nat by lia.
    rewrite insert_app_r. cbn [insert list_insert].
    by rewrite last_snoc, removelast_last.
Qed.

Lemma lookup_split {A : Type} (arr : list A) (i : nat) (x : A) :
  arr !! i = Some x → ∃ front tail, arr = front ++ x :: tail ∧ length front = i.
Proof.
  intros Hi. exists (take i arr), (drop (S i) arr). split.
  - symmetry. by apply take_drop_middle.
  - apply length_take_le. apply lookup_lt_Some in Hi. lia.
Qed.

Lemma unorderedRemove_swap {A : Type} (arr : list A) (i : nat) (x : A) :
  arr !! i = Some x → unorderedRemove i arr = swap_with_last i arr.
Proof.
  intros (front & tail & -> & <-)%lookup_split.
  rewrite unorderedRemove_middle. unfold swap_with_last.
  rewrite take_app_length.
  replace (S (length front)) with (length (front ++ [x]))
    by (rewrite length_app; cbn; lia).
  replace (front ++ x :: tail) with ((front ++ [x]) ++ tail)
    by (by rewrite <- app_assoc).
  by rewrite drop_app_length.
Qed.

Lemma fmap_unorderedRemove {A B : Type} (f : A → B) (arr : list A) (i : nat) :
  f <$> unorderedRemove i arr = unorderedRemove i (f <$> arr).
Proof.
  destruct (arr !! i) as [x|] eqn:Hi.
  - apply lookup_split in Hi as (front & tail & -> & <-).
    rewrite (fmap_app f front (x :: tail)), fmap_cons.
    rewrite <- (length_fmap f front) at 2.
    rewrite !unorderedRemove_middle. rewrite !fmap_app. f_equal.
    destruct tail as [|y tail _] using rev_ind; [done|].
    rewrite fmap_app. cbn [fmap list_fmap].
    by rewrite !last_snoc, !removelast_last.
  - rewrite !unorderedRemove_out_of_range; [done| |done].
    by rewrite list_lookup_fmap, Hi.
Qed.

(** A removal from one of the last two slots is an ordinary removal. *)
Lemma unorderedRemove_near_end {A : Type} (arr : list A) (i : nat) (x : A) :
  arr !! i = Some x → (length arr ≤ i + 2)%nat →
  unorderedRemove i arr = delete i arr.
Proof.
  intros (front & tail & -> & <-)%lookup_split Hlen.
  rewrite length_app in Hlen. cbn [length] in Hlen.
  rewrite unorderedRemove_middle, delete_middle. f_equal.
  destruct tail as [|y [|z tail]]; [done|done|cbn in Hlen; lia].
Qed.

(** Anywhere else, among distinct entries, it is not. *)
Lemma unorderedRemove_far_from_end {A : Type} (arr : list A) (i : nat) (x : A) :
  arr !! i = Some x → NoDup arr →
  unorderedRemove i arr = delete i arr → (length arr ≤ i + 2)%nat.
Proof.
  intros (front & tail & -> & <-)%lookup_split Hnd Heq.
  rewrite unorderedRemove_middle, delete_middle in Heq.
  apply app_inv_head in Heq. rewrite length_app. cbn [length].
  destruct tail as [|m tail]; [cbn; lia|].
  destruct tail as [|y tail _] using rev_ind; [cbn; lia|].
  exfalso.
  replace (m :: tail ++ [y]) with ((m :: tail) ++ [y]) in Heq by done.
  rewrite last_snoc, removelast_last in Heq. cbn in Heq.
  injection Heq as -> _.
  apply NoDup_app in Hnd as (_ & _ & Hnd).
  apply NoDup_cons in Hnd as [_ Hnd]. apply NoDup_cons in Hnd as [Hm _].
  apply Hm. apply elem_of_app. right. left.
Qed.

Lemma findIndex_ids cb arr :
  findIndex cb arr = fst <$> list_find (λ x, x = cb) (callback <$> arr).
Proof.
  unfold findIndex. rewrite list_find_fmap.
  change ((λ x, x = cb) ∘ callback) with (λ item, callback item = cb).
  by destruct (list_find _ arr) as [[i item]|].
Qed.

Lemma remove_first_delete cb (l : list Callback) i y :
  list_find (λ x, x = cb) l = Some (i, y) → remove_first cb l = delete i l.
Proof.
  revert i. induction l as [|x l IH]; intros i Hfind; [done|].
  cbn in Hfind. cbn [remove_first].
  destruct (decide (x = cb)) as [->|Hne].
  - by injection Hfind as <- _.
  - destruct (list_find (λ x, x = cb) l) as [[j z]|] eqn:Hl; [|done].
    cbn in Hfind. injection Hfind as <- <-. cbn. by rewrite (IH j).
Qed.

(** The array of callbacks after one more call. *)
Lemma ids_after_register lc cb category :
  callback <$> callbacks (step lc (Register cb category))
  = (callback <$> callbacks lc) ++ [cb].
Proof. cbn [step]. unfold register. cbn [fst callbacks]. by rewrite fmap_app. Qed.

Lemma ids_after_unregister lc cb :
  callback <$> callbacks (step lc (Unregister cb))
  = match list_find (λ x, x = cb) (callback <$> callbacks lc) with
    | None => callback <$> callbacks lc
    | Some (i, _) => swap_with_last i (callback <$> callbacks lc)
    end.
Proof.
  cbn [step]. unfold unregister. rewrite findIndex_ids.
  destruct (list_find _ (callback <$> callbacks lc)) as [[i y]|] eqn:Hfind;
    cbn [fmap option_fmap option_map fst callbacks]; [|done].
  rewrite fmap_unorderedRemove.
  apply list_find_Some in Hfind as (Hi & _ & _).
  by apply unorderedRemove_swap with y.
Qed.

(** An unregistration found among the last two entries, or not found, keeps
    the array in registration order; among distinct callbacks no other one
    does. *)
Lemma step_survivors_eq lc l cb :
  callback <$> callbacks lc = l →
  cb ∉ take (length l - 2) l →
  callback <$> callbacks (step lc (Unregister cb)) = remove_first cb l.
Proof.
  intros Heq Hnin. rewrite ids_after_unregister, Heq.
  destruct (list_find (λ x, x = cb) l) as [[i y]|] eqn:Hfind.
  - rewrite (remove_first_delete cb l i y Hfind).
    apply list_find_Some in Hfind as (Hi & -> & _).
    rewrite <- (unorderedRemove_swap l i cb Hi).
    apply unorderedRemove_near_end with cb; [done|].
    destruct (decide (length l ≤ i + 2)%nat) as [|Hfar]; [done|].
    destruct Hnin. apply elem_of_take. exists i. split; [done|lia].
  - apply list_find_None in Hfind. rewrite remove_first_absent; [done|].
    intros Hin. rewrite Forall_forall in Hfind. by apply (Hfind cb).
Qed.

Lemma step_survivors_neq lc l cb :
  callback <$> callbacks lc = l →
  NoDup l →
  cb ∈ take (length l - 2) l →
  callback <$> callbacks (step lc (Unregister cb)) ≠ remove_first cb l.
Proof.
  intros Heq Hnd Hin Hsame. rewrite ids_after_unregister, Heq in Hsame.
  apply elem_of_take in Hin as (j & Hj & Hlt).
  destruct (list_find (λ x, x = cb) l) as [[i y]|] eqn:Hfind.
  - rewrite (remove_first_delete cb l i y Hfind) in Hsame.
    apply list_find_Some in Hfind as (Hi & -> & Hmin).
    rewrite <- (unorderedRemove_swap l i cb Hi) in Hsame.
    apply (unorderedRemove_far_from_end l i cb Hi Hnd) in Hsame.
    destruct (decide (j < i)%nat) as [Hji|Hij]; [by apply (Hmin j cb)|lia].
  - apply list_find_None in Hfind. rewrite Forall_forall in Hfind.
    apply (Hfind cb); [|done]. by eapply list_elem_of_lookup_2.
Qed.

Lemma run_survivors_eq ops lc l :
  keeps_registration_order ops l = true →
  callback <$> callbacks lc = l →
  callback <$> callbacks (run ops lc) = fold_left survivors_step ops l.
Proof.
  revert lc l. induction ops as [|op ops IH]; intros lc l Hall Heq; [done|].
  cbn [keeps_registration_order] in Hall. apply andb_prop in Hall as [Hop Hall].
  cbn [run fold_left]. fold (run ops (step lc op)).
  apply IH; [done|]. destruct op as [cb category|cb]; cbn [survivors_step].
  - by rewrite ids_after_register, Heq.
  - apply step_survivors_eq; [done|]. by apply bool_decide_eq_true in Hop.
Qed.

Lemma lifecycle_run_snoc ops op lc : run (ops ++ [op]) lc = step (run ops lc) op.
Proof. unfold run. by rewrite fold_left_app. Qed.

Lemma survivors_snoc ops op :
  survivors (ops ++ [op]) = survivors_step (survivors ops) op.
Proof. unfold survivors. by rewrite fold_left_app. Qed.

Lemma step_behavior lc op : behavior (step lc op) = behavior lc.
Proof.
  destruct op; simpl; [done|]. unfold unregister.
  by destruct (findIndex _ _).
Qed.

Lemma run_behavior ops lc : behavior (run ops lc) = behavior lc.
Proof.
  revert lc. induction ops as [|op ops IH]; intros lc; [done|].
  simpl. by rewrite IH, step_behavior.
Qed.

Section WithCallbacks.

Variable suspends : Callback → Args → bool.

(** A series fire whose callbacks all return calls every entry, in array
    order, and returns. *)
Lemma fireSeries_all_return arr args :
  Forall (λ item, suspends (callback item) args = false) arr →
  invoked (fireSeries suspends arr args).1 = callback <$> arr
  ∧ (fireSeries suspends arr args).2 = Returned.
Proof.
  induction 1 as [|item arr Hitem _ [IHi IHo]]; [done|].
  simpl. unfold run_callback. rewrite Hitem.
  destruct (fireSeries suspends arr args) as [evs o]. simpl in *.
  by rewrite IHi, IHo.
Qed.



End WithCallbacks.

End LifecycleFacts.

Section LifecycleClaims.

Import Lifecycle.

(** C1, as the specification states it, fails on the code: with three
    callbacks registered and the first one unregistered, the last entry has
    been moved into the freed slot, so a series fire calls callback 3
    before callback 2, while their registration order is 2 then 3. *)
Lemma series_fire_reordered_by_unregister :
  let ops := [Register 1 "A"; Register 2 "B"; Register 3 "C"; Unregister 1] in
  let fired := fire (λ _ _, false) (run ops (new Series)) [] in
  invoked fired.1 = [3; 2]%nat
  ∧ survivors ops = [2; 3]%nat
  ∧ invoked fired.1 ≠ survivors ops.
Proof. split; [reflexivity|]. split; [reflexivity|]. discriminate. Qed.

(** C1, amended: after any sequence of register and unregister calls on a
    series lifecycle, a fire whose callbacks all return, and which do not
    themselves register or unregister on the lifecycle (the callbacks of
    this model do neither), calls exactly the still-registered callbacks,
    one call per surviving registration, one at a time in the order of the
    callbacks array.  [register] appends to that array; [unregister] of a
    registered callback moves the last entry of the array into the slot of
    the callback's first entry.  So the order of the calls is the
    registration order whenever each unregistered callback was, at the time,
    not registered or first found among the last two entries; and from an
    array of distinct callbacks in registration order one more [unregister]
    keeps registration order in that case only. *)
Theorem series_fire_calls_survivors
    (suspends : Callback → Args → bool) (ops : list Op) (args : Args) :
  (∀ cb, suspends cb args = false) →
  let lc := run ops (new Series) in
  let arr := callback <$> callbacks lc in
  let fired := fire suspends lc args in
  fired.2 = Returned
  ∧ invoked fired.1 = arr
  ∧ arr ≡ₚ survivors ops
  ∧ (∀ cb category,
       callback <$> callbacks (run (ops ++ [Register cb category]) (new Series))
       = arr ++ [cb])
  ∧ (∀ cb,
       callback <$> callbacks (run (ops ++ [Unregister cb]) (new Series))
       = match list_find (λ x, x = cb) arr with
         | None => arr
         | Some (i, _) => swap_with_last i arr
         end)
  ∧ (keeps_registration_order ops [] = true → arr = survivors ops)
  ∧ (∀ cb, arr = survivors ops → NoDup arr →
       (callback <$> callbacks (run (ops ++ [Unregister cb]) (new Series))
        = survivors (ops ++ [Unregister cb])
        ↔ cb ∉ take (length arr - 2) arr)).
Proof.
  intros Hret lc arr fired.
  assert (behavior lc = Series) as Hb by apply run_behavior.
  assert (fired = fireSeries suspends (callbacks lc) args) as ->.
  { unfold fired, fire. by rewrite Hb. }
  destruct (fireSeries_all_return suspends (callbacks lc) args) as [Hinv Hout].
  { apply Forall_forall. intros item _. apply Hret. }
  split; [done|]. split; [done|]. split; [by apply run_survivors_perm|].
  split; [intros cb category; rewrite lifecycle_run_snoc;
          apply ids_after_register|].
  split; [intros cb; rewrite lifecycle_run_snoc; apply ids_after_unregister|].
  split; [intros Hkeeps; by apply run_survivors_eq|].
  intros cb Harr Hnd. rewrite lifecycle_run_snoc, survivors_snoc.
  cbn [survivors_step]. rewrite <- Harr. split.
  - intros Hsame Hin. by apply (step_survivors_neq lc arr cb eq_refl Hnd Hin).
  - intros Hnin. by apply step_survivors_eq.
Qed.

Lemma series_fire_calls_survivors_witness :
  let ops := [Register 1 "A"; Register 2 "B"; Register 3 "C"; Unregister 2;
              Register 4 "D"] in
  let fired := fire (λ _ _, false) (run ops (new Series)) [7%Z] in
  fired.2 = Returned
  ∧ invoked fired.1 = survivors ops
  ∧ survivors ops = [1; 3; 4]%nat.
Proof.
  destruct (series_fire_calls_survivors (λ _ _, false)
              [Register 1 "A"; Register 2 "B"; Register 3 "C"; Unregister 2;
               Register 4 "D"] [7%Z] (λ _, eq_refl))
    as (Hreturned & Hinvoked & _ & _ & _ & Horder & _).
  split; [exact Hreturned|]. split; [|reflexivity].
  rewrite Hinvoked. apply Horder. reflexivity.
Defined.


(** The same callbacks on a series lifecycle do hold the firing thread:
    the model tells the two policies apart. *)
Lemma series_fire_blocked_by_parked_callback :
  let suspends := λ (cb : Callback) (_ : Args), bool_decide (cb = 2%nat) in
  let arr := [mkCallbackItem 1 "A"; mkCallbackItem 2 "B"; mkCallbackItem 3 "C"] in
  (fire suspends (mkLifecycle Series arr [] []) []).2 = Suspended
  ∧ (fire suspends (mkLifecycle Concurrent arr [] []) []).2 = Returned
  ∧ spawned (fire suspends (mkLifecycle Concurrent arr [] []) []).1 = [1; 2; 3]%nat.
Proof. done. Qed.

End LifecycleClaims.

(** ** Singleton locator *)

Section NeutronFacts.

Import Neutron.


Lemma consistent_init : consistent init.
Proof. split; [intros c; apply lookup_empty | done]. Qed.

Lemma built_for_snoc c c' i st_constructed :
  snd <$> filter (λ p : Class * Instance, p.1 = c) (st_constructed ++ [(c', i)])
  = (snd <$> filter (λ p : Class * Instance, p.1 = c) st_constructed)
      ++ (if decide (c' = c) then [i] else []).
Proof.
  rewrite filter_app, fmap_app. f_equal.
  rewrite filter_cons, filter_nil. cbn [fst].
  by destruct (decide (c' = c)).
Qed.

Lemma Provider_consistent c st :
  consistent st → consistent (Provider c st).2.
Proof.
  intros [Hslot Hnum]. unfold Provider.
  destruct (started st); [done|]. cbn [snd]. split.
  - intros c0. unfold built_for. cbn [providers constructed].
    rewrite built_for_snoc. destruct (decide (c = c0)) as [->|Hne].
    + by rewrite lookup_insert_eq, last_snoc.
    + rewrite lookup_insert_ne by done. rewrite app_nil_r. apply Hslot.
  - cbn [constructed]. rewrite fmap_app, length_app, Hnum. cbn [length].
    rewrite Nat.add_1_r, seq_S. done.
Qed.

Lemma step_consistent st op : consistent st → consistent (step st op).
Proof.
  intros Hc. destruct op as [c| |th|cb|c]; cbn [step].
  - by apply Provider_consistent.
  - unfold start. by destruct (started st).
  - unfold awaitStart. by destruct (started st).
  - unfold onStart. by destruct (started st).
  - done.
Qed.

Lemma run_consistent ops st : consistent st → consistent (run ops st).
Proof.
  revert st. induction ops as [|op ops IH]; intros st Hc; [done|].
  apply IH. by apply step_consistent.
Qed.



(** The start flag never goes back. *)
Lemma step_started st op : started st = true → started (step st op) = true.
Proof.
  intros Hs. destruct op as [c| |th|cb|c]; cbn [step].
  - unfold Provider. by rewrite Hs.
  - unfold start. by rewrite Hs.
  - unfold awaitStart. by rewrite Hs.
  - unfold onStart. by rewrite Hs.
  - done.
Qed.

Lemma run_started ops st : started st = true → started (run ops st) = true.
Proof.
  revert st. induction ops as [|op ops IH]; intros st Hs; [done|].
  apply IH. by apply step_started.
Qed.

(** Nothing but [start] sets it. *)
Lemma step_started_only_start st op :
  op ≠ Start → started (step st op) = started st.
Proof.
  intros Hop. destruct op as [c| |th|cb|c]; cbn [step]; [|congruence| | |done].
  - unfold Provider. by destruct (started st) eqn:Hs.
  - unfold awaitStart. by destruct (started st) eqn:Hs.
  - unfold onStart. by destruct (started st) eqn:Hs.
Qed.

End NeutronFacts.

Section NeutronClaims.

Import Neutron.


(** Before [start], the queues hold what the history put in them and
    nothing has been spawned. *)
Lemma run_before_start ops st :
  Forall (λ op, op ≠ Start) ops →
  started st = false →
  let st' := run ops st in
  started st' = false
  ∧ awaitCallbacks st' = awaitCallbacks st ++ queued_callbacks ops
  ∧ awaitStartThreads st' = awaitStartThreads st ++ parked_threads ops
  ∧ spawned st' = spawned st.
Proof.
  intros Hall. revert st.
  induction Hall as [|op ops Hop _ IH]; intros st Hs; cbn zeta.
  { by rewrite !app_nil_r. }
  cbn [run fold_left]. fold (run ops (step st op)).
  destruct (IH (step st op)) as (IHs & IHc & IHt & IHp).
  { by rewrite step_started_only_start. }
  rewrite IHs, IHc, IHt, IHp. split; [done|].
  destruct op as [c| |th|cb|c]; cbn [step queued_callbacks parked_threads omap];
    [|congruence| | |done].
  - unfold Provider. rewrite Hs. done.
  - unfold awaitStart. rewrite Hs. cbn [snd awaitCallbacks awaitStartThreads spawned].
    fold (parked_threads ops). by rewrite <- app_assoc.
  - unfold onStart. rewrite Hs. cbn [awaitCallbacks awaitStartThreads spawned].
    fold (queued_callbacks ops). by rewrite <- app_assoc.
Qed.

(** What indexing along a chain finds: nothing when no class of the chain
    holds a slot, else the slot of the first class that holds one. *)
Lemma index_chain_spec (chain : list Class) (st : State) :
  match index_chain chain st with
  | None => Forall (λ k, providers st !! k = None) chain
  | Some i =>
      ∃ front k rest,
        chain = front ++ k :: rest
        ∧ Forall (λ k', providers st !! k' = None) front
        ∧ providers st !! k = Some i
  end.
Proof.
  induction chain as [|c chain IH]; cbn [index_chain]; [constructor|].
  destruct (providers st !! c) as [i|] eqn:Hc.
  - exists [], c, chain. by repeat split.
  - destruct (index_chain chain st) as [i|].
    + destruct IH as (front & k & rest & -> & Hfront & Hk).
      exists (c :: front), k, rest. split; [done|]. split; [by constructor|done].
    + by constructor.
Qed.


Lemma index_chain_ext (chain : list Class) (st st' : State) :
  Forall (λ k, providers st' !! k = providers st !! k) chain →
  index_chain chain st' = index_chain chain st.
Proof.
  induction 1 as [|c chain Hc _ IH]; cbn [index_chain]; [done|].
  by rewrite Hc, IH.
Qed.



(** The scenario of the specification: declare [A], start, get [A]. *)
Example get_after_declare_and_start (tostring : Class → string) :
  let A := 5%nat in
  let st := run [Decorate A; Start] init in
  get tostring (λ _, []) A st = Ok 0%nat
  ∧ get tostring (λ _, []) A (run [Get A; Get A] st) = Ok 0%nat
  ∧ constructed st = [(A, 0%nat)]
  ∧ get tostring (λ _, []) 6%nat st = Raise (not_found tostring 6%nat).
Proof. done. Qed.

(** C6: once the start flag is set, the decorator raises at once; the class
    gets no provider slot and no object is built. *)
Theorem declare_after_start_raises (c : Class) (st : State) :
  started st = true →
  Provider c st
    = (Raise "[Neutron]: Cannot create provider after Proton has started", st)
  ∧ providers (Provider c st).2 = providers st
  ∧ constructed (Provider c st).2 = constructed st.
Proof. intros Hs. unfold Provider. by rewrite Hs. Qed.

Lemma declare_after_start_raises_witness :
  let st := run [Decorate 1%nat; OnStart 4%nat; Start] init in
  Provider 2%nat st
    = (Raise "[Neutron]: Cannot create provider after Proton has started", st)
  ∧ providers (Provider 2%nat st).2 = providers st
  ∧ constructed (Provider 2%nat st).2 = constructed st.
Proof.
  exact (declare_after_start_raises 2%nat
           (run [Decorate 1%nat; OnStart 4%nat; Start] init) eq_refl).
Defined.

(** C7: the first [start] after any history without one sets the flag,
    spawns the queued callbacks and then the parked threads, each once, and
    empties both queues; no later call, [start] included, changes the flag
    again, and a later [start] changes nothing at all. *)
Theorem start_is_idempotent (pre : list Op) :
  Forall (λ op, op ≠ Start) pre →
  let st := run pre init in
  let st1 := start st in
  started st = false
  ∧ started st1 = true
  ∧ spawned st1 = (SpawnCallback <$> queued_callbacks pre)
                    ++ (SpawnThread <$> parked_threads pre)
  ∧ awaitCallbacks st1 = []
  ∧ awaitStartThreads st1 = []
  ∧ providers st1 = providers st
  ∧ constructed st1 = constructed st
  ∧ start st1 = st1
  ∧ (∀ post, started (run post st1) = true
             ∧ start (run post st1) = run post st1).
Proof.
  intros Hpre st st1.
  destruct (run_before_start pre init Hpre eq_refl) as (Hs & Hc & Ht & Hp).
  fold st in Hs, Hc, Ht, Hp. cbn [init awaitCallbacks awaitStartThreads spawned] in *.
  rewrite app_nil_l in Hc, Ht.
  assert (st1 = mkState true [] [] (providers st) (constructed st)
                 (spawned st ++ (SpawnCallback <$> awaitCallbacks st)
                             ++ (SpawnThread <$> awaitStartThreads st))) as Hst1.
  { unfold st1, start. by rewrite Hs. }
  assert (started st1 = true) as Hs1 by (by rewrite Hst1).
  split; [done|]. split; [done|].
  split; [by rewrite Hst1; cbn [spawned]; rewrite Hp, Hc, Ht|].
  do 4 (split; [by rewrite Hst1|]).
  split; [unfold start; by rewrite Hs1|].
  intros post. pose proof (run_started post st1 Hs1) as Hpost.
  split; [done|]. unfold start. by rewrite Hpost.
Qed.

Lemma start_is_idempotent_witness :
  let pre := [OnStart 1%nat; AwaitStart 7%nat; Decorate 3%nat; OnStart 2%nat] in
  let st1 := start (run pre init) in
  spawned st1 = [SpawnCallback 1%nat; SpawnCallback 2%nat; SpawnThread 7%nat]
  ∧ start st1 = st1
  ∧ started (run [Start; OnStart 9%nat; Start] st1) = true.
Proof.
  pose proof (start_is_idempotent
    [OnStart 1%nat; AwaitStart 7%nat; Decorate 3%nat; OnStart 2%nat]) as H.
  destruct H as (_ & _ & Hsp & _ & _ & _ & _ & Hid & Hpost).
  { repeat constructor; discriminate. }
  split; [exact Hsp|]. split; [exact Hid|].
  exact (proj1 (Hpost [Start; OnStart 9%nat; Start])).
Defined.

End NeutronClaims.

(** ** Endpoint namer *)

Section StringFacts.

Lemma string_length_app (s1 s2 : string) :
  String.length (s1 +:+ s2) = (String.length s1 + String.length s2)%nat.
Proof.
  induction s1 as [|a s1 IH]; [done|].
  change (String a s1 +:+ s2) with (String a (s1 +:+ s2)).
  cbn [String.length]. by rewrite IH.
Qed.

(** Two concatenations with prefixes of one length agree piecewise. *)
Lemma string_app_inj_length (s1 s2 t1 t2 : string) :
  String.length s1 = String.length s2 →
  s1 +:+ t1 = s2 +:+ t2 → s1 = s2 ∧ t1 = t2.
Proof.
  revert s2. induction s1 as [|a s1 IH]; intros [|b s2] Hlen Heq;
    try discriminate Hlen.
  - done.
  - change (String a (s1 +:+ t1) = String b (s2 +:+ t2)) in Heq.
    injection Heq as -> Heq. injection Hlen as Hlen.
    destruct (IH s2 Hlen Heq) as [-> ->]; done.
Qed.

Lemma pretty_N_go_length (x : N) (s : string) :
  (String.length s ≤ String.length (pretty_N_go x s))%nat.
Proof.
  revert s. induction (N.lt_wf_0 x) as [x _ IH]; intros s.
  destruct (decide (x = 0)%N) as [->|Hx]; [by rewrite pretty_N_go_0|].
  rewrite pretty_N_go_step by lia.
  etrans; [|apply IH; apply N.div_lt; lia]. cbn. lia.
Qed.

(** A number prints as at least one digit. *)
Lemma pretty_nat_length (n : nat) : (1 ≤ String.length (pretty n))%nat.
Proof.
  unfold pretty, pretty_nat, pretty, pretty_N.
  destruct (decide (N.of_nat n = 0)%N) as [_|Hn]; [done|].
  rewrite pretty_N_go_step by lia.
  etrans; [|apply pretty_N_go_length]. done.
Qed.

End StringFacts.


Section ResolveFacts.

Import Net.

Lemma candidate_inj base : Inj (=) (=) (candidate base).
Proof.
  assert (∀ j : nat, base ≠ base +:+ pretty j) as Hne.
  { intros j Heq. apply (f_equal String.length) in Heq.
    rewrite string_length_app in Heq.
    pose proof (pretty_nat_length j). lia. }
  intros [|i] [|j] Heq; cbn [candidate] in Heq.
  - done.
  - by apply Hne in Heq.
  - symmetry in Heq. by apply Hne in Heq.
  - apply (inj _) in Heq. apply (inj _) in Heq. by subst.
Qed.

Lemma resolve_step fuel names base k :
  resolve (S fuel) names base (candidate base k) k
  = if decide (candidate base k ∈ names)
    then resolve fuel names base (candidate base (S k)) (S k)
    else Some (candidate base k).
Proof. done. Qed.

(** What the loop returns is the first candidate that is not taken. *)
Lemma resolve_Some fuel names base k name :
  resolve fuel names base (candidate base k) k = Some name →
  ∃ j, (k ≤ j)%nat ∧ name = candidate base j ∧ (name ∉ names)
       ∧ ∀ i, (k ≤ i < j)%nat → candidate base i ∈ names.
Proof.
  revert k. induction fuel as [|fuel IH]; intros k Hres; [done|].
  rewrite resolve_step in Hres.
  destruct (decide (candidate base k ∈ names)) as [Hin|Hnin].
  - apply IH in Hres as (j & Hle & -> & Hnin & Hbelow).
    exists j. split; [lia|]. split; [done|]. split; [done|].
    intros i Hi. destruct (decide (i = k)) as [->|Hne]; [done|].
    apply Hbelow. lia.
  - injection Hres as <-. exists k. split; [done|]. split; [done|].
    split; [done|]. intros i Hi. lia.
Qed.

(** The loop ends: by the time it has tested more candidates than there are
    names that could be in the way, one of them was free. *)
Lemma resolve_terminates fuel names base k (taken : gset string) :
  (∀ i, (k ≤ i)%nat → candidate base i ∈ names → candidate base i ∈ taken) →
  (size taken < fuel)%nat →
  is_Some (resolve fuel names base (candidate base k) k).
Proof.
  revert k taken. induction fuel as [|fuel IH]; intros k taken Hcover Hsize; [lia|].
  rewrite resolve_step.
  destruct (decide (candidate base k ∈ names)) as [Hin|Hnin]; [|by eexists].
  apply (IH (S k) (taken ∖ {[candidate base k]})).
  - intros i Hi Hini. apply elem_of_difference. split; [apply Hcover; [lia|done]|].
    rewrite elem_of_singleton. intros Heq%candidate_inj. lia.
  - assert (candidate base k ∈ taken) as Hk by (apply Hcover; [lia|done]).
    rewrite size_difference by set_solver. rewrite size_singleton.
    assert (0 < size taken)%nat; [|lia].
    assert ({[candidate base k]} ⊆ taken) as Hsub by set_solver.
    apply subseteq_size in Hsub. rewrite size_singleton in Hsub. lia.
Qed.

Lemma resolve_total names base :
  ∃ j, resolve (S (size names)) names base base 0 = Some (candidate base j)
       ∧ (candidate base j ∉ names)
       ∧ ∀ i, (i < j)%nat → candidate base i ∈ names.
Proof.
  destruct (resolve_terminates (S (size names)) names base 0 names)
    as [name Hname]; [done|lia|].
  pose proof Hname as (j & _ & -> & Hnin & Hbelow)%resolve_Some.
  exists j. split; [exact Hname|]. split; [done|].
  intros i Hi. apply Hbelow. lia.
Qed.

End ResolveFacts.


Section NamerFacts.

Import Net.
Context `{RandomHost}.
Variable env : Env.

Lemma fold_left_add (rest : list Z) (x : Z) :
  fold_left Z.add rest x = (x + foldr Z.add 0 rest)%Z.
Proof.
  revert x. induction rest as [|y rest IH]; intros x; cbn [fold_left foldr]; [lia|].
  rewrite IH. lia.
Qed.

Lemma reduce_add_checksum (data : string) :
  data ≠ "" → reduce_add (string_byte data) = Ok (checksum data).
Proof.
  destruct data as [|a rest]; [done|]. intros _.
  unfold checksum. cbn [string_byte reduce_add foldr].
  by rewrite fold_left_add.
Qed.

Lemma nameArray_length n rng : length (nameArray n rng) = n.
Proof.
  revert rng. induction n as [|n IH]; intros rng; [done|].
  cbn [nameArray]. destruct (NextInteger 33 126 rng) as [code rng'].
  cbn [length]. by rewrite IH.
Qed.

Lemma nameArray_range n rng :
  Forall (λ code, 33 ≤ code ≤ 126)%Z (nameArray n rng).
Proof.
  revert rng. induction n as [|n IH]; intros rng; [constructor|].
  cbn [nameArray]. pose proof (NextInteger_range 33 126 rng) as Hr.
  destruct (NextInteger 33 126 rng) as [code rng'].
  constructor; [apply Hr; lia|apply IH].
Qed.

Lemma string_char_Some (codes : list Z) :
  Forall (λ code, 0 ≤ code < 256)%Z codes →
  ∃ s, string_char codes = Some s
       ∧ string_byte s = codes
       ∧ String.length s = length codes.
Proof.
  induction 1 as [|code codes Hcode _ (s & Hs & Hb & Hl)]; [by exists ""|].
  exists (String (ascii_of_N (Z.to_N code)) s).
  cbn [string_char]. rewrite decide_True by done. rewrite Hs.
  split; [done|]. cbn [string_byte String.length]. rewrite Hb, Hl.
  split; [|done]. f_equal.
  rewrite N_ascii_embedding by lia. lia.
Qed.

(** The base name: the sixteen draws of the generator seeded with
    [seed + checksum], as one string. *)
Lemma baseName_Ok (data : string) :
  data ≠ "" →
  ∃ base, baseName env data = Ok base
          ∧ string_byte base
            = nameArray 16 (Random_new (seed env + checksum data)%Z)
          ∧ String.length base = 16%nat.
Proof.
  intros Hdata. unfold baseName. rewrite reduce_add_checksum by done.
  destruct (string_char_Some
              (nameArray 16 (Random_new (seed env + checksum data)%Z)))
    as (s & Hs & Hb & Hl).
  { eapply Forall_impl; [apply nameArray_range|]. cbn beta. lia. }
  exists s. cbv zeta. rewrite Hs. rewrite nameArray_length in Hl. done.
Qed.

(** The whole function: the first free candidate is returned and
    recorded. *)
Lemma generateNetworkName_spec (data : string) (st : State) (base : string) :
  baseName env data = Ok base →
  ∃ j, generateNetworkName env data st
       = (Ok (candidate base j),
          mkState ({[candidate base j]} ∪ networkNames st) (netFolder st))
       ∧ (candidate base j ∉ networkNames st)
       ∧ ∀ i, (i < j)%nat → candidate base i ∈ networkNames st.
Proof.
  intros Hbase. unfold generateNetworkName. rewrite Hbase.
  destruct (resolve_total (networkNames st) base) as (j & -> & Hnin & Hbelow).
  by exists j.
Qed.

Lemma pretty_line_nonempty (s : string) (l : nat) : s +:+ pretty l ≠ "".
Proof.
  intros Heq. apply (f_equal String.length) in Heq.
  rewrite string_length_app in Heq. pose proof (pretty_nat_length l).
  cbn [String.length] in Heq. lia.
Qed.

Lemma suffix_closed_candidate (names : gset string) (base : string) (j : nat) :
  String.length base = 16%nat →
  suffix_closed names →
  (∀ i, (i < j)%nat → candidate base i ∈ names) →
  suffix_closed ({[candidate base j]} ∪ names).
Proof.
  intros Hlen Hclosed Hbelow b k Hb Hin.
  apply elem_of_union in Hin as [Hin%elem_of_singleton|Hin].
  - destruct j as [|j]; cbn [candidate] in Hin.
    + apply (f_equal String.length) in Hin.
      rewrite string_length_app in Hin. pose proof (pretty_nat_length k). lia.
    + apply string_app_inj_length in Hin as [-> _]; [|congruence].
      apply elem_of_union. right. apply (Hbelow 0%nat). lia.
  - apply elem_of_union. right. by eapply Hclosed.
Qed.

End NamerFacts.


Section SetupFacts.

Import Net.
Context `{RandomHost}.
Variable env : Env.

(** One construction: either a fresh generated name, recorded in the set,
    or the caller's name, with the set left alone. *)
Lemma setupRemoteObject_spec (r : Request) (st : State) :
  ∃ m st',
    setupRemoteObject env (req_class r) (req_name r) (req_source r) (req_line r) st
      = (Ok (mkRemote (req_class r) ("r/" +:+ m)), st')
    ∧ (if generates env r
       then (m ∉ networkNames st)
            ∧ networkNames st' = {[m]} ∪ networkNames st
            ∧ (suffix_closed (networkNames st) → suffix_closed (networkNames st'))
       else req_name r = Some m ∧ networkNames st' = networkNames st).
Proof.
  assert (∃ m st1, generateNetworkName env (req_source r +:+ pretty (req_line r)) st
                   = (Ok m, st1)
                   ∧ (m ∉ networkNames st)
                   ∧ networkNames st1 = {[m]} ∪ networkNames st
                   ∧ netFolder st1 = netFolder st
                   ∧ (suffix_closed (networkNames st)
                      → suffix_closed (networkNames st1)))
    as (m & st1 & Hgen & Hnin & Hset & Hfolder & Hclosed).
  { destruct (baseName_Ok env (req_source r +:+ pretty (req_line r)))
      as (base & Hbase & _ & Hlen); [apply pretty_line_nonempty|].
    destruct (generateNetworkName_spec env _ st base Hbase)
      as (j & Hgen & Hnin & Hbelow).
    eexists _, _. split; [exact Hgen|]. cbn [networkNames netFolder].
    split; [done|]. split; [done|]. split; [done|].
    intros Hc. by apply suffix_closed_candidate. }
  unfold setupRemoteObject, generates.
  destruct (req_name r) as [n|] eqn:Hname.
  - destruct (IsStudio env); cbn [negb].
    + exists n. destruct (IsServer env); eexists; (split; [reflexivity|done]).
    + rewrite Hgen. exists m.
      destruct (IsServer env); eexists; (split; [reflexivity|done]).
  - rewrite Hgen. exists m.
    destruct (IsServer env); eexists; (split; [reflexivity|done]).
Qed.

Lemma setupRemoteObject_suffix_closed (r : Request) (st : State) :
  suffix_closed (networkNames st) →
  suffix_closed
    (networkNames (setupRemoteObject env (req_class r) (req_name r)
                                     (req_source r) (req_line r) st).2).
Proof.
  intros Hc. destruct (setupRemoteObject_spec r st) as (m & st' & -> & Hcase).
  cbn [snd]. destruct (generates env r).
  - destruct Hcase as (_ & _ & Hc'). by apply Hc'.
  - destruct Hcase as [_ ->]. done.
Qed.

(** A whole run of constructions never fails, and the generated names are
    pairwise distinct, new with respect to the set it started from, and
    recorded in the set it ends with. *)
Lemma setupAll_spec (reqs : list Request) (st0 : State) :
  ∃ out st,
    setupAll env reqs st0 = (Ok out, st)
    ∧ fst <$> out = reqs
    ∧ networkNames st0 ⊆ networkNames st
    ∧ (suffix_closed (networkNames st0) → suffix_closed (networkNames st))
    ∧ NoDup (generated_names env out)
    ∧ (∀ n, n ∈ generated_names env out →
            ∃ m, n = "r/" +:+ m ∧ (m ∉ networkNames st0) ∧ m ∈ networkNames st)
    ∧ Forall (λ p, generates env p.1 = false →
                   ∃ n, req_name p.1 = Some n ∧ Name p.2 = "r/" +:+ n) out.
Proof.
  revert st0. induction reqs as [|r reqs IH]; intros st0.
  { exists [], st0. repeat split; try done; try constructor.
    intros n Hn. by apply elem_of_nil in Hn. }
  destruct (setupRemoteObject_spec r st0) as (m & st1 & Hone & Hcase).
  destruct (IH st1) as (out & st & Hall & Hfst & Hsub & Hclosed & Hnodup & Hgen & Hexp).
  exists ((r, mkRemote (req_class r) ("r/" +:+ m)) :: out), st.
  cbn [setupAll]. rewrite Hone, Hall.
  split; [done|]. split; [by rewrite fmap_cons, Hfst|].
  unfold generated_names in *. rewrite filter_cons. cbn [fst].
  destruct (generates env r) eqn:Hg.
  - destruct Hcase as (Hnin & Hset & Hc1).
    assert (m ∈ networkNames st1) as Hm.
    { rewrite Hset. apply elem_of_union. left. by apply elem_of_singleton. }
    assert (networkNames st0 ⊆ networkNames st1) as Hsub1.
    { intros x Hx. rewrite Hset. apply elem_of_union. by right. }
    rewrite decide_True by done. rewrite fmap_cons. cbn [snd Name].
    split; [by etrans|]. split; [auto|]. split; [|split].
    + constructor; [|done]. intros Hin. apply Hgen in Hin as (m' & Heq & Hnin' & _).
      apply (inj _) in Heq. by subst m'.
    + intros n Hn. apply elem_of_cons in Hn as [->|Hn].
      * exists m. split; [done|]. split; [done|]. by apply Hsub.
      * apply Hgen in Hn as (m' & -> & Hnin' & Hin').
        exists m'. split; [done|]. split; [|done].
        intros Hx. by apply Hnin', Hsub1.
    + constructor; [|done]. cbn [fst]. congruence.
  - destruct Hcase as [Hname Hset].
    rewrite decide_False by done. rewrite Hset in *.
    split; [done|]. split; [done|].
    split; [done|]. split; [done|].
    + constructor; [|done]. intros _. by exists m.
Qed.

End SetupFacts.


Section NamerClaims.

Import Net.
Context `{RandomHost}.
Variable env : Env.

(** C3: for a non-empty fingerprint the base identifier is the sixteen
    draws, each a code point from 33 to 126, of the generator seeded with
    the seed plus the byte-sum of the fingerprint.  It depends on seed and
    fingerprint through that sum alone, so any derivation with the same
    seed and fingerprint, on the server or on a client, from any set of
    names already taken, starts from the same base identifier. *)
Theorem baseName_deterministic (data : string) :
  data ≠ "" →
  ∃ base,
    baseName env data = Ok base
    ∧ String.length base = 16%nat
    ∧ string_byte base = nameArray 16 (Random_new (seed env + checksum data)%Z)
    ∧ length (string_byte base) = 16%nat
    ∧ Forall (λ code, 33 ≤ code ≤ 126)%Z (string_byte base)
    ∧ (∀ env' data',
         data' ≠ "" →
         (seed env' + checksum data')%Z = (seed env + checksum data)%Z →
         baseName env' data' = Ok base)
    ∧ (∀ st, ∃ j, (generateNetworkName env data st).1 = Ok (candidate base j)).
Proof.
  intros Hdata. destruct (baseName_Ok env data Hdata) as (base & Hbase & Hb & Hl).
  exists base. split; [done|]. split; [done|]. split; [done|].
  rewrite Hb. split; [apply nameArray_length|]. split; [apply nameArray_range|].
  split.
  - intros env' data' Hdata' Hsum.
    destruct (baseName_Ok env' data' Hdata') as (base' & Hbase' & Hb' & Hl').
    rewrite Hbase'. f_equal.
    rewrite Hsum, <- Hb in Hb'.
    revert Hb'. clear. revert base.
    induction base' as [|a s IH]; intros [|b t] Heq; try done.
    cbn [string_byte] in Heq. injection Heq as Ha Hs.
    f_equal; [|by apply IH].
    apply (f_equal Z.to_N) in Ha. rewrite !N2Z.id in Ha.
    apply (f_equal ascii_of_N) in Ha. by rewrite !ascii_N_embedding in Ha.
  - intros st. destruct (generateNetworkName_spec env data st base Hbase)
      as (j & -> & _). by exists j.
Qed.

(** C4: the namer returns the first of base, base0, base1, ... that is
    not taken.  From any state a process can reach, when the base name of
    [X] is still free and [Y] has the same checksum, [X] gets the base name
    and [Y], constructed next, gets the base name followed by 0. *)
Theorem collision_appends_suffix (reqs : list Request) (X Y : string) :
  X ≠ "" →
  Y ≠ "" →
  checksum X = checksum Y →
  let st := (setupAll env reqs init).2 in
  ∃ base,
    baseName env X = Ok base
    ∧ baseName env Y = Ok base
    ∧ (∀ st', ∃ j,
         (generateNetworkName env Y st').1 = Ok (candidate base j)
         ∧ (candidate base j ∉ networkNames st')
         ∧ ∀ i, (i < j)%nat → candidate base i ∈ networkNames st')
    ∧ (base ∉ networkNames st →
       ∃ st1 st2,
         generateNetworkName env X st = (Ok base, st1)
         ∧ generateNetworkName env Y st1 = (Ok (base +:+ "0"), st2)).
Proof.
  intros HX HY Hsum st.
  destruct (baseName_Ok env X HX) as (base & Hbase & Hb & Hl).
  assert (baseName env Y = Ok base) as HbaseY.
  { unfold baseName in *. rewrite reduce_add_checksum in * by done.
    by rewrite <- Hsum. }
  exists base. split; [done|]. split; [done|]. split.
  - intros st'. destruct (generateNetworkName_spec env Y st' base HbaseY)
      as (j & -> & Hnin & Hbelow). by exists j.
  - intros Hfree.
    assert (suffix_closed (networkNames st)) as Hclosed.
    { destruct (setupAll_spec env reqs init) as (out & st' & Hall & _ & _ & Hc & _).
      unfold st. rewrite Hall. apply Hc. intros b k _ Hin.
      by apply not_elem_of_empty in Hin. }
    destruct (generateNetworkName_spec env X st base Hbase)
      as (j & HgenX & Hnin & Hbelow).
    assert (j = 0%nat) as ->.
    { destruct j as [|j]; [done|]. destruct Hfree. apply (Hbelow 0%nat). lia. }
    cbn [candidate] in HgenX. eexists _. rewrite HgenX.
    destruct (generateNetworkName_spec env Y
                (mkState ({[base]} ∪ networkNames st) (netFolder st)) base HbaseY)
      as (j & HgenY & HninY & HbelowY).
    cbn [networkNames netFolder] in *.
    assert (base +:+ pretty 0%nat ∉ ({[base]} ∪ networkNames st)) as Hzero.
    { intros [Heq%elem_of_singleton|Hin]%elem_of_union.
      - apply (f_equal String.length) in Heq.
        rewrite string_length_app in Heq. pose proof (pretty_nat_length 0). lia.
      - apply Hfree. by apply (Hclosed base 0%nat). }
    assert (j = 1%nat) as ->.
    { destruct j as [|[|j]]; [|done|].
      - destruct HninY. set_solver.
      - destruct Hzero. apply (HbelowY 1%nat). lia. }
    eexists _. split; [done|]. exact HgenY.
Qed.

End NamerClaims.

Section NamerWitnesses.

Import Net.


Lemma baseName_deterministic_witness :
  ∃ base,
    @baseName lcg (mkEnv 42 true false) fingerprint_X = Ok base
    ∧ @baseName lcg (mkEnv 42 false false) fingerprint_Y = Ok base
    ∧ string_byte base
      = [82; 47; 82; 35; 96; 69; 64; 53; 118; 123; 52; 101; 82; 109; 80; 117]%Z.
Proof.
  destruct (@baseName_deterministic lcg (mkEnv 42 true false) fingerprint_X)
    as (base & Hbase & _ & Hbytes & _ & _ & Hsame & _); [discriminate|].
  exists base. split; [exact Hbase|]. split.
  - apply Hsame; [discriminate|reflexivity].
  - rewrite Hbytes. vm_compute. reflexivity.
Defined.

(** The scenario of the specification: seed 42, checksum 7 for both. *)
Lemma collision_appends_suffix_witness :
  ∃ base st1 st2,
    @generateNetworkName lcg (mkEnv 42 true false) fingerprint_X init
      = (Ok base, st1)
    ∧ @generateNetworkName lcg (mkEnv 42 true false) fingerprint_Y st1
      = (Ok (base +:+ "0"), st2).
Proof.
  destruct (@collision_appends_suffix lcg (mkEnv 42 true false) []
              fingerprint_X fingerprint_Y)
    as (base & _ & _ & _ & Hscenario);
    [discriminate|discriminate|reflexivity|].
  destruct Hscenario as (st1 & st2 & HX & HY).
  { cbn. apply not_elem_of_empty. }
  exists base, st1, st2. split; [exact HX|exact HY].
Defined.

End NamerWitnesses.

Section EndpointClaims.

Import Net.

(** C2, as the specification states it, fails on the code: in Studio two
    endpoints constructed with the same explicit name both get that name
    as their wire identifier. *)
Lemma explicit_names_collide_in_studio :
  let env := mkEnv 42 true true in
  let chat := mkRequest RemoteEvent (Some "Chat") "ReplicatedStorage.net" 479 in
  ∃ st,
    @setupAll lcg env [chat; chat] init
      = (Ok [(chat, mkRemote RemoteEvent "r/Chat");
             (chat, mkRemote RemoteEvent "r/Chat")], st)
    ∧ ¬ NoDup ["r/Chat"; "r/Chat"].
Proof.
  eexists. split; [vm_compute; reflexivity|].
  intros Hnd. apply NoDup_cons in Hnd as [Hnin _]. apply Hnin. left.
Qed.

Context `{RandomHost}.
Variable env : Env.

Lemma generated_names_all (out : list (Request * Remote)) :
  IsStudio env = false →
  generated_names env out = (λ p, Name p.2) <$> out.
Proof.
  intros Hs. unfold generated_names. f_equal.
  induction out as [|[r remote] out IH]; [done|].
  rewrite filter_cons. cbn [fst].
  rewrite decide_True; [by rewrite IH|].
  unfold generates. rewrite Hs. by destruct (req_name r).
Qed.

(** C2, amended: every run of endpoint constructions succeeds, and the
    endpoints whose name is generated (no explicit name, or not in Studio)
    get pairwise distinct wire identifiers, so outside Studio all
    identifiers are distinct; an explicit name in Studio is used as it is,
    without any check against the other endpoints. *)
Theorem generated_identifiers_distinct (reqs : list Request) :
  ∃ out st,
    setupAll env reqs init = (Ok out, st)
    ∧ fst <$> out = reqs
    ∧ NoDup (generated_names env out)
    ∧ NoDup (if IsStudio env then generated_names env out
             else (λ p, Name p.2) <$> out)
    ∧ Forall (λ p, generates env p.1 = false →
                   ∃ n, req_name p.1 = Some n ∧ Name p.2 = "r/" +:+ n) out.
Proof.
  destruct (setupAll_spec env reqs init)
    as (out & st & Hall & Hfst & _ & _ & Hnodup & _ & Hexp).
  exists out, st. split; [done|]. split; [done|]. split; [done|].
  split; [|done].
  destruct (IsStudio env) eqn:Hs; [done|]. by rewrite <- generated_names_all.
Qed.

(** C9: an explicit name becomes the wire identifier only in Studio, and
    then the name set is neither consulted nor changed; outside Studio the
    call does exactly what it does without a name, the identifier being
    generated from the fingerprint of the call site. *)
Theorem explicit_name_only_in_studio
    (className : RemoteClass) (n s : string) (l : nat) (st : State) :
  if IsStudio env then
    (setupRemoteObject env className (Some n) s l st).1
      = Ok (mkRemote className ("r/" +:+ n))
    ∧ networkNames (setupRemoteObject env className (Some n) s l st).2
      = networkNames st
  else
    setupRemoteObject env className (Some n) s l st
      = setupRemoteObject env className None s l st
    ∧ ∃ m st1,
        generateNetworkName env (s +:+ pretty l) st = (Ok m, st1)
        ∧ (setupRemoteObject env className (Some n) s l st).1
          = Ok (mkRemote className ("r/" +:+ m))
        ∧ networkNames (setupRemoteObject env className (Some n) s l st).2
          = {[m]} ∪ networkNames st
        ∧ (m ∉ networkNames st).
Proof.
  unfold setupRemoteObject. destruct (IsStudio env).
  - by destruct (IsServer env).
  - split; [done|].
    destruct (baseName_Ok env (s +:+ pretty l)) as (base & Hbase & _);
      [apply pretty_line_nonempty|].
    destruct (generateNetworkName_spec env _ st base Hbase)
      as (j & Hgen & Hnin & _).
    eexists _, _. rewrite Hgen. split; [done|].
    by destruct (IsServer env).
Qed.

End EndpointClaims.

Section EventClaims.

Import Net.

(** C10: when [fire] is given an array, whatever it holds, the event goes
    to every player [Players.GetPlayers()] returns, for [NetEvent] and for
    [UnreliableNetEvent] alike. *)
Theorem fire_with_array_reaches_all_players
    (GetPlayers ps : list Player) (remote : Remote) (args : Args) :
  NetEventServer_fire GetPlayers remote (PlayerArray ps) args
    = (λ p, FireClient remote p args) <$> GetPlayers
  ∧ UnreliableNetEventServer_fire GetPlayers remote (PlayerArray ps) args
    = (λ p, FireClient remote p args) <$> GetPlayers
  ∧ (∀ ps',
       NetEventServer_fire GetPlayers remote (PlayerArray ps') args
         = NetEventServer_fire GetPlayers remote (PlayerArray ps) args
       ∧ UnreliableNetEventServer_fire GetPlayers remote (PlayerArray ps') args
         = UnreliableNetEventServer_fire GetPlayers remote (PlayerArray ps) args).
Proof. done. Qed.

(** Three players connected: an array holding only player 1 reaches all
    three, the single player 1 reaches player 1, and [fireExcept] does
    read its array. *)
Example fire_array_of_one :
  let remote := mkRemote RemoteEvent "r/Chat" in
  NetEventServer_fire [1; 2; 3]%nat remote (PlayerArray [1%nat]) []
    = [FireClient remote 1%nat []; FireClient remote 2%nat [];
       FireClient remote 3%nat []]
  ∧ NetEventServer_fire [1; 2; 3]%nat remote (OnePlayer 1%nat) []
    = [FireClient remote 1%nat []]
  ∧ NetEventServer_fireExcept [1; 2; 3]%nat remote (PlayerArray [1%nat]) []
    = [FireClient remote 2%nat []; FireClient remote 3%nat []].
Proof. done. Qed.

End EventClaims.

(** * Further properties of the code *)

(** ** Lifecycle registry: registration, removal, subscriptions *)

Section LifecycleMore.

Import Lifecycle.









Lemma indexOf_present (l : Listener) (arr : list Listener) :
  l ∈ arr → ∃ i, indexOf l arr = Some i ∧ arr !! i = Some l.
Proof.
  intros Hin. unfold indexOf.
  destruct (list_find_elem_of (λ x, x = l) arr l) as [[i x] Hfind]; [done|done|].
  rewrite Hfind. exists i. split; [done|].
  by apply list_find_Some in Hfind as (Hi & -> & _).
Qed.

Lemma cleanup_perm (l : Listener) (arr : list Listener) (i : nat) :
  indexOf l (arr ++ [l]) = Some i →
  (arr ++ [l]) !! i = Some l →
  unorderedRemove i (arr ++ [l]) ≡ₚ arr
  ∧ (l ∉ arr → unorderedRemove i (arr ++ [l]) = arr).
Proof.
  intros Hidx Hi. split.
  - apply (Permutation_cons_inv (a := l)).
    rewrite (unorderedRemove_cons_perm _ _ _ Hi).
    symmetry. apply Permutation_cons_append.
  - intros Hnin. assert (i = length arr) as ->; [|apply unorderedRemove_last].
    destruct (decide (i < length arr)%nat) as [Hlt|Hge].
    + rewrite lookup_app_l in Hi by done. destruct Hnin.
      by eapply list_elem_of_lookup_2.
    + apply lookup_lt_Some in Hi. rewrite length_app in Hi. cbn [length] in Hi. lia.
Qed.

(** X4: subscribing a meta-listener and calling the cleanup function it got
    back leaves the same listeners subscribed, for [onRegistered] and for
    [onUnregistered]; when the listener was not subscribed before, the
    lifecycle is exactly what it was.  The registered callbacks are never
    touched. *)
Theorem subscribe_then_cleanup_restores (l : Listener) (lc : NeutronLifecycle) :
  let lcR := onRegistered_cleanup l (onRegistered l lc) in
  let lcU := onUnregistered_cleanup l (onUnregistered l lc) in
  onRegisteredCallbacks lcR ≡ₚ onRegisteredCallbacks lc
  ∧ onUnregisteredCallbacks lcU ≡ₚ onUnregisteredCallbacks lc
  ∧ (l ∉ onRegisteredCallbacks lc → lcR = lc)
  ∧ (l ∉ onUnregisteredCallbacks lc → lcU = lc)
  ∧ callbacks lcR = callbacks lc
  ∧ callbacks lcU = callbacks lc
  ∧ onUnregisteredCallbacks lcR = onUnregisteredCallbacks lc
  ∧ onRegisteredCallbacks lcU = onRegisteredCallbacks lc.
Proof.
  cbn zeta. unfold onRegistered_cleanup, onUnregistered_cleanup,
              onRegistered, onUnregistered.
  cbn [onRegisteredCallbacks onUnregisteredCallbacks callbacks behavior].
  destruct (indexOf_present l (onRegisteredCallbacks lc ++ [l]))
    as (i & Hi & Hli); [apply elem_of_app; right; left|].
  destruct (indexOf_present l (onUnregisteredCallbacks lc ++ [l]))
    as (j & Hj & Hlj); [apply elem_of_app; right; left|].
  rewrite Hi, Hj.
  cbn [onRegisteredCallbacks onUnregisteredCallbacks callbacks behavior].
  destruct (cleanup_perm l _ i Hi Hli) as [HpR HeR].
  destruct (cleanup_perm l _ j Hj Hlj) as [HpU HeU].
  split; [done|]. split; [done|].
  split; [intros Hnin; rewrite HeR by done; by destruct lc|].
  split; [intros Hnin; rewrite HeU by done; by destruct lc|]. done.
Qed.



End LifecycleMore.

(** ** Singleton locator: queues, threads and provider objects *)

Section NeutronMore.

Import Neutron.

Lemma run_snoc ops op st : run (ops ++ [op]) st = step (run ops st) op.
Proof. unfold run. by rewrite fold_left_app. Qed.

Lemma before_start_started ops l :
  Start ∈ ops → before_start (ops ++ l) = before_start ops.
Proof.
  induction ops as [|op ops IH]; intros Hin; [by apply elem_of_nil in Hin|].
  destruct op; cbn [app before_start]; try done;
    apply elem_of_cons in Hin as [?|Hin]; try done; by rewrite IH.
Qed.

Lemma before_start_not_started ops l :
  Start ∉ ops → before_start (ops ++ l) = ops ++ before_start l.
Proof.
  induction ops as [|op ops IH]; intros Hnin; [done|].
  apply not_elem_of_cons in Hnin as [Hne Hnin].
  destruct op; cbn [app before_start]; try done; by rewrite IH.
Qed.

Lemma start_not_in_snoc ops op :
  Start ∉ ops → op ≠ Start → bool_decide (Start ∈ ops ++ [op]) = false.
Proof.
  intros Hnin Hne. apply bool_decide_eq_false.
  intros [Hin|Hin%list_elem_of_singleton]%elem_of_app; [done|congruence].
Qed.

Lemma spawned_callbacks_of_tasks (cbs : list Callback) (ths : list Thread) :
  omap (λ t, match t with SpawnCallback cb => Some cb | _ => None end)
       ((SpawnCallback <$> cbs) ++ (SpawnThread <$> ths)) = cbs.
Proof.
  rewrite omap_app.
  assert (omap (λ t, match t with SpawnCallback cb => Some cb | _ => None end)
               (SpawnThread <$> ths) = []) as ->.
  { induction ths as [|x l IH]; [done|]. by csimpl. }
  rewrite app_nil_r. induction cbs as [|x l IH]; [done|].
  csimpl. by rewrite IH.
Qed.

Lemma spawned_threads_of_tasks (cbs : list Callback) (ths : list Thread) :
  omap (λ t, match t with SpawnThread th => Some th | _ => None end)
       ((SpawnCallback <$> cbs) ++ (SpawnThread <$> ths)) = ths.
Proof.
  rewrite omap_app.
  assert (omap (λ t, match t with SpawnThread th => Some th | _ => None end)
               (SpawnCallback <$> cbs) = []) as ->.
  { induction cbs as [|x l IH]; [done|]. by csimpl. }
  cbn [app]. induction ths as [|x l IH]; [done|].
  csimpl. by rewrite IH.
Qed.

(** What every reachable state looks like, in terms of the calls made. *)
Lemma run_history ops :
  let st := run ops init in
  started st = bool_decide (Start ∈ ops)
  ∧ if started st then
      awaitCallbacks st = [] ∧ awaitStartThreads st = []
      ∧ spawned_callbacks st = queued_callbacks ops
      ∧ spawned_threads st = parked_threads (before_start ops)
    else
      spawned st = []
      ∧ awaitCallbacks st = queued_callbacks ops
      ∧ awaitStartThreads st = parked_threads ops.
Proof.
  induction ops as [|op ops IH] using rev_ind; [done|].
  cbn zeta in *. rewrite run_snoc. destruct IH as [Hflag IH].
  unfold queued_callbacks, parked_threads, spawned_callbacks, spawned_threads in *.
  rewrite !omap_app.
  destruct (started (run ops init)) eqn:Hs.
  - symmetry in Hflag. apply bool_decide_eq_true in Hflag.
    destruct IH as (Hc & Ht & Hsc & Hst).
    rewrite before_start_started by done.
    rewrite (step_started _ op Hs). split.
    { symmetry. apply bool_decide_eq_true. apply elem_of_app. by left. }
    destruct op as [c| |th|cb|c]; cbn [step omap]; rewrite ?app_nil_r.
    + unfold Provider. by rewrite Hs.
    + unfold start. by rewrite Hs.
    + unfold awaitStart. by rewrite Hs.
    + unfold onStart. rewrite Hs.
      cbn [awaitCallbacks awaitStartThreads spawned]. rewrite !omap_app.
      cbn [omap]. rewrite app_nil_r. by rewrite Hsc.
    + done.
  - symmetry in Hflag. apply bool_decide_eq_false in Hflag.
    destruct IH as (Hsp & Hc & Ht).
    destruct op as [c| |th|cb|c]; cbn [step omap]; rewrite ?app_nil_r.
    + unfold Provider. rewrite Hs. cbn [snd started]. rewrite ?Hs.
      by rewrite start_not_in_snoc.
    + unfold start. rewrite Hs. cbn [started]. split.
      { symmetry. apply bool_decide_eq_true. apply elem_of_app. right. left. }
      cbn [awaitCallbacks awaitStartThreads spawned].
      rewrite before_start_not_started by done. cbn [before_start].
      rewrite app_nil_r, Hsp, Hc, Ht. cbn [app].
      by rewrite spawned_callbacks_of_tasks, spawned_threads_of_tasks.
    + unfold awaitStart. rewrite Hs. cbn [snd started]. rewrite ?Hs.
      rewrite start_not_in_snoc by done.
      cbn [awaitCallbacks awaitStartThreads spawned]. by rewrite Ht.
    + unfold onStart. rewrite Hs. cbn [started]. rewrite ?Hs.
      rewrite start_not_in_snoc by done.
      cbn [awaitCallbacks awaitStartThreads spawned]. by rewrite Hc.
    + rewrite Hs. by rewrite start_not_in_snoc.
Qed.

(** X6: in every sequence of calls made from outside the spawned callbacks
    (a history of this model; the callbacks themselves call nothing), the
    callbacks handed to [onStart] are spawned in the order they were handed
    over, each exactly once, and none is lost: those not yet spawned are
    exactly the ones still queued.  Before [start] nothing at all is
    spawned; after it the queue stays empty. *)
Theorem onStart_callbacks_spawned_once_in_order (ops : list Op) :
  let st := run ops init in
  spawned_callbacks st ++ awaitCallbacks st = queued_callbacks ops
  ∧ (if isStarted st then awaitCallbacks st = [] else spawned st = []).
Proof.
  cbn zeta. unfold isStarted. destruct (run_history ops) as [_ Hhist].
  cbn zeta in Hhist. destruct (started (run ops init)).
  - destruct Hhist as (Hc & _ & Hsc & _). by rewrite Hc, app_nil_r.
  - destruct Hhist as (Hsp & Hc & _). split; [|done].
    unfold spawned_callbacks. by rewrite Hsp.
Qed.

(** X7: [awaitStart] parks the calling thread exactly when Neutron has not
    started yet; the threads resumed by [start] are the threads that called
    [awaitStart] before it, in call order, each resumed once, and a thread
    that calls [awaitStart] later is neither parked nor spawned. *)
Theorem parked_threads_resumed_once (ops : list Op) :
  let st := run ops init in
  spawned_threads st ++ awaitStartThreads st = parked_threads (before_start ops)
  ∧ (if isStarted st then awaitStartThreads st = [] else spawned_threads st = [])
  ∧ (∀ th, (awaitStart th st).1 = if isStarted st then Returned else Suspended)
  ∧ (∀ th, if isStarted st then (awaitStart th st).2 = st
           else awaitStartThreads (awaitStart th st).2
                = awaitStartThreads st ++ [th]).
Proof.
  cbn zeta. unfold isStarted. destruct (run_history ops) as [Hflag Hhist].
  cbn zeta in Hhist. unfold awaitStart.
  destruct (started (run ops init)).
  - destruct Hhist as (_ & Ht & _ & Hst). by rewrite Ht, app_nil_r.
  - destruct Hhist as (Hsp & _ & Ht). symmetry in Hflag.
    apply bool_decide_eq_false in Hflag.
    pose proof (before_start_not_started ops [] Hflag) as Hb.
    rewrite !app_nil_r in Hb. rewrite Hb.
    unfold spawned_threads. by rewrite Hsp.
Qed.

Lemma snd_unique {A B : Type} (l : list (A * B)) (a a' : A) (b : B) :
  NoDup (snd <$> l) → (a, b) ∈ l → (a', b) ∈ l → a = a'.
Proof.
  induction l as [|[x y] l IH]; intros Hnd Hin Hin'.
  { by apply elem_of_nil in Hin. }
  rewrite fmap_cons in Hnd. apply NoDup_cons in Hnd as [Hy Hnd].
  apply elem_of_cons in Hin as [Heq|Hin]; apply elem_of_cons in Hin' as [Heq'|Hin'].
  - congruence.
  - injection Heq as -> ->. destruct Hy. apply list_elem_of_fmap.
    by exists (a', y).
  - injection Heq' as -> ->. destruct Hy. apply list_elem_of_fmap.
    by exists (a, y).
  - by apply IH.
Qed.

Lemma built_for_elem (c : Class) (i : Instance) (st : State) :
  last (built_for c st) = Some i → (c, i) ∈ constructed st.
Proof.
  intros Hlast. apply last_Some_elem_of in Hlast. unfold built_for in Hlast.
  apply list_elem_of_fmap in Hlast as ([c0 i0] & -> & Hin).
  apply list_elem_of_filter in Hin as [Hc Hin]. cbn in Hc. by subst c0.
Qed.

(** X8: a provider object is shared only along a superclass chain: when
    [get] returns the same object for two classes, that object sits in the
    slot of one class that is on the lookup chain of both, where it was put
    by that class's latest declaration; two classes without superclasses
    never get the same object unless they are the same class. *)
Theorem provider_objects_shared_only_along_chain
    (tostring : Class → string) (ancestors : Class → list Class)
    (ops : list Op) (c c' : Class) (i : Instance) :
  get tostring ancestors c (run ops init) = Ok i →
  get tostring ancestors c' (run ops init) = Ok i →
  (∃ owner, owner ∈ c :: ancestors c
            ∧ owner ∈ c' :: ancestors c'
            ∧ last (built_for owner (run ops init)) = Some i)
  ∧ (ancestors c = [] → ancestors c' = [] → c = c').
Proof.
  destruct (run_consistent ops init consistent_init) as [Hslot Hnum].
  unfold get, class_index. intros Hc Hc'.
  pose proof (index_chain_spec (c :: ancestors c) (run ops init)) as Hs.
  pose proof (index_chain_spec (c' :: ancestors c') (run ops init)) as Hs'.
  destruct (index_chain (c :: ancestors c) _) as [j|]; [|done].
  destruct (index_chain (c' :: ancestors c') _) as [j'|]; [|done].
  injection Hc as ->. injection Hc' as ->.
  destruct Hs as (front & k & rest & Hchain & _ & Hk).
  destruct Hs' as (front' & k' & rest' & Hchain' & _ & Hk').
  rewrite Hslot in Hk, Hk'.
  assert (k = k') as <-.
  { apply built_for_elem in Hk as Hin. apply built_for_elem in Hk' as Hin'.
    eapply snd_unique; [|exact Hin|exact Hin'].
    rewrite Hnum. apply NoDup_seq. }
  assert (k ∈ c :: ancestors c) as Hin
      by (rewrite Hchain; apply elem_of_app; right; left).
  assert (k ∈ c' :: ancestors c') as Hin'
      by (rewrite Hchain'; apply elem_of_app; right; left).
  split; [by exists k|].
  intros Ha Ha'. rewrite Ha in Hin. rewrite Ha' in Hin'.
  apply list_elem_of_singleton in Hin, Hin'. congruence.
Qed.

Lemma provider_objects_shared_only_along_chain_witness :
  let ancestors := λ c : Class, if decide (c = 8%nat) then [4%nat] else [] in
  let ops := [Decorate 4%nat; Start] in
  ∃ owner, owner ∈ 8%nat :: ancestors 8%nat
           ∧ owner ∈ 4%nat :: ancestors 4%nat
           ∧ last (built_for owner (run ops init)) = Some 0%nat.
Proof.
  exact (proj1 (provider_objects_shared_only_along_chain (λ _, "Service")
                  (λ c : Class, if decide (c = 8%nat) then [4%nat] else [])
                  [Decorate 4%nat; Start] 8%nat 4%nat 0%nat eq_refl eq_refl)).
Defined.

(** X9: the decorator has no guard against a class that already has a
    provider: decorating a class again before [start] builds a second,
    different object, [get] returns the newer one from then on, and [get]
    is unchanged for every class that does not have the decorated class on
    its lookup chain. *)
Theorem decorating_again_replaces_provider
    (tostring : Class → string) (ancestors : Class → list Class)
    (ops : list Op) (c : Class) (i : Instance) :
  isStarted (run ops init) = false →
  last (built_for c (run ops init)) = Some i →
  let st' := run (ops ++ [Decorate c]) init in
  ∃ i', get tostring ancestors c st' = Ok i'
        ∧ i' ≠ i
        ∧ built_for c st' = built_for c (run ops init) ++ [i']
        ∧ (i ∈ built_for c st')
        ∧ ∀ c', c ∉ c' :: ancestors c' →
                get tostring ancestors c' st'
                = get tostring ancestors c' (run ops init).
Proof.
  intros Hs Hl. cbn zeta. rewrite run_snoc. cbn [step].
  destruct (run_consistent ops init consistent_init) as [Hslot Hnum].
  unfold isStarted in Hs. unfold Provider. rewrite Hs. cbn [snd].
  set (st := run ops init) in *.
  set (st' := mkState false (awaitStartThreads st) (awaitCallbacks st)
                      (<[c:=fresh st]> (providers st))
                      (constructed st ++ [(c, fresh st)]) (spawned st)).
  assert (built_for c st' = built_for c st ++ [fresh st]) as Hb.
  { unfold built_for, st'. cbn [constructed].
    by rewrite built_for_snoc, decide_True. }
  assert (i ∈ (snd <$> constructed st)) as Hin.
  { apply built_for_elem in Hl. apply list_elem_of_fmap. by exists (c, i). }
  exists (fresh st). rewrite Hb. split; [|split; [|split; [done|split]]].
  - unfold get, class_index, st'. cbn [index_chain providers].
    by rewrite lookup_insert_eq.
  - intros Heq. rewrite Hnum, elem_of_seq in Hin. unfold fresh in Heq. lia.
  - apply elem_of_app. left. apply last_Some_elem_of in Hl. exact Hl.
  - intros c' Hnin. unfold get, class_index.
    rewrite (index_chain_ext (c' :: ancestors c') st st'); [done|].
    apply Forall_forall. intros k Hk. unfold st'. cbn [providers].
    apply lookup_insert_ne. intros ->. by apply Hnin.
Qed.

Lemma decorating_again_replaces_provider_witness :
  ∃ i', get (λ _, "Service") (λ _, []) 4%nat
            (run ([Decorate 4%nat; Decorate 8%nat] ++ [Decorate 4%nat]) init) = Ok i'
        ∧ i' ≠ 0%nat.
Proof.
  destruct (decorating_again_replaces_provider (λ _, "Service") (λ _, [])
              [Decorate 4%nat; Decorate 8%nat] 4%nat 0%nat eq_refl eq_refl)
    as (i' & Hget & Hne & _).
  exists i'. split; [exact Hget|exact Hne].
Defined.

End NeutronMore.

(** ** Endpoint namer: fresh names, numbering, both sides of the wire *)

Section NamerMore.

Import Net.
Context `{RandomHost}.
Variable env : Env.

Lemma candidate_length base j :
  (String.length base ≤ String.length (candidate base j))%nat.
Proof.
  destruct j as [|j]; cbn [candidate]; [done|].
  rewrite string_length_app. lia.
Qed.

(** X10: for a non-empty fingerprint [generateNetworkName] always comes
    back, on any set of names: its loop ends, it raises nothing, the name it
    returns was not in the set before, is at least 16 characters long, and
    is the one name added to the set. *)
Theorem generateNetworkName_returns_fresh_name (data : string) (st : State) :
  data ≠ "" →
  ∃ name,
    generateNetworkName env data st
      = (Ok name, mkState ({[name]} ∪ networkNames st) (netFolder st))
    ∧ (name ∉ networkNames st)
    ∧ size ({[name]} ∪ networkNames st) = S (size (networkNames st))
    ∧ (16 ≤ String.length name)%nat.
Proof.
  intros Hdata. destruct (baseName_Ok env data Hdata) as (base & Hbase & _ & Hlen).
  destruct (generateNetworkName_spec env data st base Hbase) as (j & Hgen & Hnin & _).
  exists (candidate base j). split; [done|]. split; [done|]. split.
  - rewrite size_union by (by apply disjoint_singleton_l).
    by rewrite size_singleton.
  - rewrite <- Hlen. apply candidate_length.
Qed.

(** The state in which the candidates of [base] from [k] on are all free and
    those below [k] are all taken. *)
Lemma setupAll_same_call_site (r : Request) (base : string) (n k : nat) (st : State) :
  generates env r = true →
  baseName env (req_source r +:+ pretty (req_line r)) = Ok base →
  (∀ i, (i < k)%nat → candidate base i ∈ networkNames st) →
  (∀ j, (k ≤ j)%nat → candidate base j ∉ networkNames st) →
  (setupAll env (replicate n r) st).1
  = Ok ((λ i, (r, mkRemote (req_class r) ("r/" +:+ candidate base i))) <$> seq k n).
Proof.
  intros Hg Hbase. revert k st.
  induction n as [|n IH]; intros k st Hbelow Habove; [done|].
  rewrite replicate_S. cbn [setupAll seq]. rewrite fmap_cons.
  destruct (generateNetworkName_spec env _ st base Hbase) as (j & Hgen & Hnin & Hlow).
  assert (j = k) as ->.
  { destruct (decide (j < k)%nat) as [Hlt|Hge]; [by destruct Hnin; apply Hbelow|].
    destruct (decide (k < j)%nat) as [Hlt|Hge']; [|lia].
    destruct (Habove k); [lia|]. by apply Hlow. }
  assert (setupRemoteObject env (req_class r) (req_name r) (req_source r)
                            (req_line r) st
          = (Ok (mkRemote (req_class r) ("r/" +:+ candidate base k)),
             mkState ({[candidate base k]} ∪ networkNames st)
                     (if IsServer env
                      then netFolder st
                             ++ [mkRemote (req_class r) ("r/" +:+ candidate base k)]
                      else netFolder st))) as ->.
  { unfold setupRemoteObject. unfold generates in Hg.
    destruct (req_name r) as [nm|].
    - destruct (IsStudio env); [done|]. rewrite Hgen. by destruct (IsServer env).
    - rewrite Hgen. by destruct (IsServer env). }
  match goal with
  | |- context [setupAll env (replicate n r) ?st1] =>
      pose proof (IH (S k) st1) as IHn
  end.
  cbn [networkNames] in IHn.
  destruct (setupAll env (replicate n r) _) as [res st'].
  cbn [fst] in IHn. rewrite IHn; [done| |].
  - intros i Hi. apply elem_of_union.
    destruct (decide (i = k)) as [->|Hne]; [left; by apply elem_of_singleton|].
    right. apply Hbelow. lia.
  - intros j Hj [Heq%elem_of_singleton|Hin]%elem_of_union.
    + apply candidate_inj in Heq. lia.
    + by apply (Habove j); [lia|].
Qed.

(** X11: endpoints constructed from one call site share a fingerprint, so
    they are told apart by construction order alone: after any earlier
    constructions that left the base name free, the first of [n] such
    endpoints gets the base name, the second the base name followed by 0,
    the third by 1, and so on. *)
Theorem same_call_site_numbering (reqs0 : list Request) (r : Request) (n : nat) :
  generates env r = true →
  let st0 := (setupAll env reqs0 init).2 in
  ∃ base,
    baseName env (req_source r +:+ pretty (req_line r)) = Ok base
    ∧ (base ∉ networkNames st0 →
       (setupAll env (replicate n r) st0).1
       = Ok ((λ i, (r, mkRemote (req_class r) ("r/" +:+ candidate base i)))
               <$> seq 0 n)).
Proof.
  intros Hg st0.
  destruct (baseName_Ok env (req_source r +:+ pretty (req_line r)))
    as (base & Hbase & _ & Hlen); [apply pretty_line_nonempty|].
  exists base. split; [done|]. intros Hfree.
  apply setupAll_same_call_site; [done|done|intros i Hi; lia|].
  assert (suffix_closed (networkNames st0)) as Hclosed.
  { destruct (setupAll_spec env reqs0 init) as (out & st' & Hall & _ & _ & Hc & _).
    unfold st0. rewrite Hall. apply Hc. intros b k _ Hin.
    by apply not_elem_of_empty in Hin. }
  intros [|j] _; cbn [candidate]; [done|].
  intros Hin. apply Hfree. by apply (Hclosed base j).
Qed.

Lemma baseName_seed (env' : Env) (data : string) :
  seed env' = seed env → baseName env' data = baseName env data.
Proof. intros Hseed. unfold baseName. by rewrite Hseed. Qed.

(** One construction on two sides that share the seed and the Studio flag
    and hold the same names: the same remote on both, the same names
    after. *)
Lemma setupRemoteObject_sides (env' : Env) (r : Request) (st st' : State) :
  seed env' = seed env →
  IsStudio env' = IsStudio env →
  networkNames st' = networkNames st →
  let a := setupRemoteObject env (req_class r) (req_name r)
                             (req_source r) (req_line r) st in
  let b := setupRemoteObject env' (req_class r) (req_name r)
                             (req_source r) (req_line r) st' in
  b.1 = a.1
  ∧ networkNames b.2 = networkNames a.2
  ∧ netFolder a.2
    = (if IsServer env then
         match a.1 with Ok remote => netFolder st ++ [remote] | _ => netFolder st end
       else netFolder st)
  ∧ netFolder b.2
    = (if IsServer env' then
         match b.1 with Ok remote => netFolder st' ++ [remote] | _ => netFolder st' end
       else netFolder st').
Proof.
  intros Hseed Hstudio Hnames. cbn zeta. unfold setupRemoteObject.
  rewrite Hstudio.
  assert (∀ data,
            (generateNetworkName env' data st').1 = (generateNetworkName env data st).1
            ∧ networkNames (generateNetworkName env' data st').2
              = networkNames (generateNetworkName env data st).2
            ∧ netFolder (generateNetworkName env data st).2 = netFolder st
            ∧ netFolder (generateNetworkName env' data st').2 = netFolder st')
    as Hgen.
  { intros data. unfold generateNetworkName.
    rewrite (baseName_seed env' data Hseed), Hnames.
    destruct (baseName env data) as [base| |]; [|done|done].
    by destruct (resolve _ _ base base 0). }
  destruct (req_name r) as [nm|].
  - destruct (IsStudio env).
    + by destruct (IsServer env), (IsServer env').
    + destruct (Hgen (req_source r +:+ pretty (req_line r))) as (H1 & H2 & H3 & H4).
      destruct (generateNetworkName env _ st) as [[m| |] s1];
        destruct (generateNetworkName env' _ st') as [[m'| |] s1'];
        cbn [fst snd] in *; try discriminate; simplify_eq;
        destruct (IsServer env), (IsServer env');
        cbn [fst snd networkNames netFolder]; by rewrite ?H3, ?H4.
  - destruct (Hgen (req_source r +:+ pretty (req_line r))) as (H1 & H2 & H3 & H4).
    destruct (generateNetworkName env _ st) as [[m| |] s1];
      destruct (generateNetworkName env' _ st') as [[m'| |] s1'];
      cbn [fst snd] in *; try discriminate; simplify_eq;
      destruct (IsServer env), (IsServer env');
      cbn [fst snd networkNames netFolder]; by rewrite ?H3, ?H4.
Qed.

Lemma setupAll_sides (env' : Env) (reqs : list Request) (st st' : State) :
  seed env' = seed env →
  IsStudio env' = IsStudio env →
  networkNames st' = networkNames st →
  (setupAll env' reqs st').1 = (setupAll env reqs st).1
  ∧ networkNames (setupAll env' reqs st').2 = networkNames (setupAll env reqs st).2.
Proof.
  intros Hseed Hstudio. revert st st'.
  induction reqs as [|r reqs IH]; intros st st' Hnames; [done|].
  cbn [setupAll].
  destruct (setupRemoteObject_sides env' r st st' Hseed Hstudio Hnames)
    as (H1 & H2 & _). cbn zeta in H1, H2.
  destruct (setupRemoteObject env _ _ _ _ st) as [[remote| |] s1];
    destruct (setupRemoteObject env' _ _ _ _ st') as [[remote'| |] s1'];
    cbn [fst snd] in *; try discriminate;
    [|split; congruence|split; congruence].
  injection H1 as ->. destruct (IH s1 s1' H2) as [Hout Hn].
  destruct (setupAll env reqs s1) as [[out| |] s2];
    destruct (setupAll env' reqs s1') as [[out'| |] s2'];
    cbn [fst snd] in *; try discriminate; split; congruence.
Qed.

Lemma setupAll_folder (reqs : list Request) (st : State) :
  ∀ out st', setupAll env reqs st = (Ok out, st') →
  netFolder st' = if IsServer env then netFolder st ++ (snd <$> out) else netFolder st.
Proof.
  revert st. induction reqs as [|r reqs IH]; intros st out st' Hall.
  { cbn in Hall. injection Hall as <- <-. destruct (IsServer env); [|done].
    by rewrite app_nil_r. }
  cbn [setupAll] in Hall.
  destruct (setupRemoteObject_sides env r st st eq_refl eq_refl eq_refl)
    as (_ & _ & Hf & _). cbn zeta in Hf.
  destruct (setupRemoteObject env _ _ _ _ st) as [[remote| |] s1];
    [|discriminate|discriminate].
  destruct (setupAll env reqs s1) as [[out1| |] s2] eqn:Hrest;
    [|discriminate|discriminate].
  injection Hall as <- <-. rewrite (IH s1 out1 s2 Hrest).
  cbn [fst snd] in Hf. rewrite Hf. destruct (IsServer env); [|done].
  rewrite fmap_cons. cbn [snd]. by rewrite <- app_assoc.
Qed.

End NamerMore.

Section BothSides.

Import Net.
Context `{RandomHost}.

(** X12: a server and a client that share the seed and construct the same
    endpoints in the same order arrive at the same wire identifier for
    every endpoint, without exchanging any name.  The server has then put
    exactly these remotes, in construction order, into its folder; the
    client has created nothing. *)
Theorem server_and_client_agree_on_names
    (seed : Z) (studio : bool) (reqs : list Request) :
  let server := mkEnv seed true studio in
  let client := mkEnv seed false studio in
  ∃ out st_server st_client,
    setupAll server reqs init = (Ok out, st_server)
    ∧ setupAll client reqs init = (Ok out, st_client)
    ∧ netFolder st_server = snd <$> out
    ∧ netFolder st_client = []
    ∧ networkNames st_server = networkNames st_client.
Proof.
  cbn zeta.
  destruct (setupAll_spec (mkEnv seed true studio) reqs init)
    as (out & st_s & Hs & _).
  destruct (setupAll_spec (mkEnv seed false studio) reqs init)
    as (out' & st_c & Hc & _).
  destruct (setupAll_sides (mkEnv seed true studio) (mkEnv seed false studio)
              reqs init init eq_refl eq_refl eq_refl) as [Hout Hnames].
  rewrite Hs, Hc in Hout, Hnames. cbn [fst snd] in Hout, Hnames.
  injection Hout as ->.
  exists out, st_s, st_c. split; [done|]. split; [done|].
  split; [exact (setupAll_folder (mkEnv seed true studio) reqs init out st_s Hs)|].
  split; [exact (setupAll_folder (mkEnv seed false studio) reqs init out st_c Hc)|].
  done.
Qed.

Lemma foldr_add_perm (l l' : list Z) :
  l ≡ₚ l' → foldr Z.add 0%Z l = foldr Z.add 0%Z l'.
Proof.
  induction 1 as [|x l l' _ IH|x y l|l l' l'' _ IH _ IH']; cbn [foldr]; lia.
Qed.

(** X13: the checksum only adds the bytes up, so fingerprints made of the
    same bytes in another order (for instance a source path ending in line
    12 and the same path ending in line 21) get the same base name, for
    every seed. *)
Theorem anagram_fingerprints_share_base (env : Env) (X Y : string) :
  string_byte X ≡ₚ string_byte Y →
  baseName env X = baseName env Y.
Proof.
  intros Hperm. unfold baseName.
  assert (reduce_add (string_byte X) = reduce_add (string_byte Y)) as ->; [|done].
  pose proof (foldr_add_perm _ _ Hperm) as Hsum.
  destruct (string_byte X) as [|x xs] eqn:HX; destruct (string_byte Y) as [|y ys] eqn:HY.
  - done.
  - by apply Permutation_nil_l in Hperm.
  - by apply Permutation_nil_r in Hperm.
  - cbn [reduce_add]. rewrite !fold_left_add.
    cbn [foldr] in Hsum. by rewrite Hsum.
Qed.

End BothSides.

Section NamerMoreWitnesses.

Import Net.

Lemma generateNetworkName_returns_fresh_name_witness :
  ∃ name,
    (@generateNetworkName lcg (mkEnv 42 true false) "net.ts479" init).1 = Ok name
    ∧ (16 ≤ String.length name)%nat.
Proof.
  destruct (@generateNetworkName_returns_fresh_name lcg (mkEnv 42 true false)
              "net.ts479" init) as (name & Hgen & _ & _ & Hlen); [discriminate|].
  exists name. rewrite Hgen. split; [reflexivity|exact Hlen].
Defined.

Lemma same_call_site_numbering_witness :
  let r := mkRequest RemoteEvent None "ReplicatedStorage.net" 479 in
  ∃ base,
    (@setupAll lcg (mkEnv 42 true false) (replicate 3 r) init).1
    = Ok [(r, mkRemote RemoteEvent ("r/" +:+ base));
          (r, mkRemote RemoteEvent ("r/" +:+ base +:+ "0"));
          (r, mkRemote RemoteEvent ("r/" +:+ base +:+ "1"))].
Proof.
  destruct (@same_call_site_numbering lcg (mkEnv 42 true false) []
              (mkRequest RemoteEvent None "ReplicatedStorage.net" 479) 3)
    as (base & _ & Hrun); [reflexivity|].
  exists base. apply Hrun. cbn. apply not_elem_of_empty.
Defined.

Lemma anagram_fingerprints_share_base_witness :
  @baseName lcg (mkEnv 42 true false) "net12" = @baseName lcg (mkEnv 42 true false) "net21".
Proof.
  apply (@anagram_fingerprints_share_base lcg (mkEnv 42 true false) "net12" "net21").
  cbn [string_byte]. do 3 apply perm_skip. apply perm_swap.
Defined.

End NamerMoreWitnesses.

(** ** Server events: who is reached *)

Section EventMore.

Import Net.

Lemma FireClient_elem (remote : Remote) (args : Args) (P : Player → Prop)
    `{∀ p, Decision (P p)} (G : list Player) (p : Player) :
  FireClient remote p args ∈ ((λ x, FireClient remote x args) <$> filter P G)
  ↔ p ∈ G ∧ P p.
Proof.
  rewrite list_elem_of_fmap. split.
  - intros (y & Heq & Hin). injection Heq as ->.
    apply list_elem_of_filter in Hin. tauto.
  - intros [Hin HP]. exists p. split; [done|]. by apply list_elem_of_filter.
Qed.

Lemma filter_all {A : Type} (P : A → Prop) `{∀ x, Decision (P x)} (l : list A) :
  (∀ x, P x) → filter P l = l.
Proof.
  intros HP. induction l as [|x l IH]; [done|].
  rewrite filter_cons, decide_True by done. by rewrite IH.
Qed.

(** X14: [fireExcept] reaches exactly the connected players that are not
    excluded, never an excluded one and never one that is not connected;
    excluding the one-element array [[q]] is the same as excluding the
    player [q], and excluding nobody is what [fire] does with any array. *)
Theorem fireExcept_reaches_the_others
    (GetPlayers ps : list Player) (q : Player) (remote : Remote) (args : Args) :
  (∀ p, FireClient remote p args
          ∈ NetEventServer_fireExcept GetPlayers remote (PlayerArray ps) args
        ↔ p ∈ GetPlayers ∧ p ∉ ps)
  ∧ (∀ p, FireClient remote p args
            ∈ NetEventServer_fireExcept GetPlayers remote (OnePlayer q) args
          ↔ p ∈ GetPlayers ∧ p ≠ q)
  ∧ NetEventServer_fireExcept GetPlayers remote (PlayerArray [q]) args
    = NetEventServer_fireExcept GetPlayers remote (OnePlayer q) args
  ∧ UnreliableNetEventServer_fireExcept GetPlayers remote (PlayerArray [q]) args
    = UnreliableNetEventServer_fireExcept GetPlayers remote (OnePlayer q) args
  ∧ NetEventServer_fireExcept GetPlayers remote (PlayerArray []) args
    = NetEventServer_fire GetPlayers remote (PlayerArray ps) args
  ∧ UnreliableNetEventServer_fireExcept GetPlayers remote (PlayerArray []) args
    = UnreliableNetEventServer_fire GetPlayers remote (PlayerArray ps) args.
Proof.
  unfold NetEventServer_fireExcept, UnreliableNetEventServer_fireExcept,
         NetEventServer_fire, UnreliableNetEventServer_fire.
  cbn [typeOf]. rewrite !decide_True by done. rewrite !decide_False by done.
  assert (filter (λ player, player ∉ [q]) GetPlayers
          = filter (λ player, player ≠ q) GetPlayers) as Hone.
  { apply list_filter_iff. intros p. by rewrite list_elem_of_singleton. }
  assert (filter (λ player : Player, player ∉ @nil Player) GetPlayers = GetPlayers)
    as Hnone.
  { apply filter_all. intros p. apply not_elem_of_nil. }
  split; [intros p; apply FireClient_elem|].
  split; [intros p; apply FireClient_elem|].
  by rewrite Hone, Hnone.
Qed.

(** X15: the players reached by [fireIf] with the test "is in [ps]" and
    those reached by [fireExcept] with the array [ps] are together the
    players [fire] reaches with an array, each once; and [fireExcept] with
    the array [ps] is [fireIf] with the test "is not in [ps]". *)
Theorem fireIf_and_fireExcept_split
    (GetPlayers ps : list Player) (remote : Remote) (args : Args) :
  NetEventServer_fireIf GetPlayers remote (λ p, bool_decide (p ∈ ps)) args
    ++ NetEventServer_fireExcept GetPlayers remote (PlayerArray ps) args
  ≡ₚ NetEventServer_fire GetPlayers remote (PlayerArray ps) args
  ∧ NetEventServer_fireExcept GetPlayers remote (PlayerArray ps) args
    = NetEventServer_fireIf GetPlayers remote (λ p, bool_decide (p ∉ ps)) args
  ∧ UnreliableNetEventServer_fireExcept GetPlayers remote (PlayerArray ps) args
    = UnreliableNetEventServer_fireIf GetPlayers remote
        (λ p, bool_decide (p ∉ ps)) args
  ∧ length (NetEventServer_fireIf GetPlayers remote (λ p, bool_decide (p ∈ ps)) args)
    + length (NetEventServer_fireExcept GetPlayers remote (PlayerArray ps) args)
    = length GetPlayers.
Proof.
  unfold NetEventServer_fireExcept, UnreliableNetEventServer_fireExcept,
         NetEventServer_fire, NetEventServer_fireIf, UnreliableNetEventServer_fireIf.
  cbn [typeOf]. rewrite !decide_True by done.
  assert (filter (λ player, bool_decide (player ∈ ps) = true) GetPlayers
          = filter (λ player, player ∈ ps) GetPlayers) as Hin.
  { apply list_filter_iff. intros p. by rewrite bool_decide_eq_true. }
  assert (filter (λ player, bool_decide (player ∉ ps) = true) GetPlayers
          = filter (λ player, player ∉ ps) GetPlayers) as Hout.
  { apply list_filter_iff. intros p. by rewrite bool_decide_eq_true. }
  rewrite Hin, Hout.
  pose proof (filter_app_complement (λ player, player ∈ ps) GetPlayers) as Hsplit.
  split; [by rewrite <- fmap_app, Hsplit|]. split; [done|]. split; [done|].
  rewrite !length_fmap, <- length_app. by rewrite Hsplit.
Qed.

End EventMore.
